(** * lwc-classes: the [protectThis] binder and the datatable sorter

    A shallow embedding of
      - [force-app/main/default/lwc/protectThis/protectThis.js]
      - [force-app/main/default/lwc/sorting/sorting.js]
        (the [DemoApp] component and the reusable [DatatableSorter] class)
    together with the properties the specification states about them. *)

From Stdlib Require Import ZArith Ascii String Sorting.Sorted.
From stdpp Require Import gmap strings list fin_maps.

Local Open Scope Z_scope.

(** * Part I: the program *)

(** ** JavaScript primitives held in the attributes of a record *)

(** The numbers other than NaN are modelled by integers (the demo data
    holds ages and ids); [JsNaN] is the number NaN.  [JsUndefined] is also
    what reading an absent attribute yields. *)
Inductive Scalar :=
  | JsUndefined
  | JsNull
  | JsBoolean (b : bool)
  | JsNumber (n : Z)
  | JsNaN
  | JsString (s : string).

#[global] Instance Scalar_eq_dec : EqDecision Scalar.
Proof. solve_decision. Defined.

(** Code-unit wise comparison of two strings: [string_lt x y] is [x < y].
    A string is held as its bytes, which are its code units when all its
    characters are ASCII. *)
Fixpoint string_lt (x y : string) : bool :=
  match x, y with
  | _, EmptyString => false
  | EmptyString, String _ _ => true
  | String a x', String b y' =>
      if (nat_of_ascii a <? nat_of_ascii b)%nat then true
      else if (nat_of_ascii b <? nat_of_ascii a)%nat then false
      else string_lt x' y'
  end.

Definition digit_of (c : ascii) : option Z :=
  let n := nat_of_ascii c in
  if ((48 <=? n) && (n <=? 57))%nat then Some (Z.of_nat n - 48) else None.

Fixpoint digits_value (acc : Z) (s : string) : option Z :=
  match s with
  | EmptyString => Some acc
  | String c s' =>
      match digit_of c with
      | Some d => digits_value (10 * acc + d) s'
      | None => None
      end
  end.

(** The conversion of a string to a number, on decimal integer literals
    with an optional sign and on the empty string; [None] is NaN.  Every
    other string is read as NaN, which is what the language does unless
    the string holds a number in another notation (a fraction, an
    exponent, a hexadecimal literal, white space around the digits):
    strings of that kind are outside the model.  The conversion matters
    only where a string is compared with a value that is not a string. *)
Definition StringToNumber (s : string) : option Z :=
  match s with
  | EmptyString => Some 0
  | String "+" (String c r) => digits_value 0 (String c r)
  | String "-" (String c r) => Z.opp <$> digits_value 0 (String c r)
  | String "+" EmptyString | String "-" EmptyString => None
  | _ => digits_value 0 s
  end.

(** [ToNumber]: [None] is NaN. *)
Definition ToNumber (v : Scalar) : option Z :=
  match v with
  | JsUndefined => None
  | JsNull => Some 0
  | JsBoolean b => Some (Z.b2z b)
  | JsNumber n => Some n
  | JsNaN => None
  | JsString s => StringToNumber s
  end.

(** The operator [a > b] on primitives: two strings compare by code
    units, anything else numerically, and a comparison with NaN is false. *)
Definition js_gt (a b : Scalar) : bool :=
  match a, b with
  | JsString x, JsString y => string_lt y x
  | _, _ =>
      match ToNumber a, ToNumber b with
      | Some m, Some n => n <? m
      | _, _ => false
      end
  end.

(** ** [Array.prototype.sort] *)

(** The engine's sort with a comparison function, as V8 does it.  The
    leading run of the array is found first ([CountAndMakeRun]): it is
    either non-descending or strictly descending, and a descending run is
    reversed in place.  Every later element is then moved to the place a
    binary search finds for it in the part already sorted
    ([BinaryInsertionSort]).  V8 sorts an array of fewer than 64 elements
    in exactly this way, as one run; a longer array it cuts into runs of
    this kind, which it merges.  The model sorts every array as one run.
    For a comparison function that is consistent on the elements the
    result is the one ECMAScript determines, that of any stable sort
    ([Array_sort_canonical]); for any other comparison function the order
    is the engine's own. *)
Section ArraySort.
Context {A : Type}.
Variable comparefn : A → A → Z.

(** How many elements after [previousElement] continue the run. *)
Fixpoint run_length (isDescending : bool) (previousElement : A) (rest : list A)
  : nat :=
  match rest with
  | [] => O
  | currentElement :: rest =>
      let order := comparefn currentElement previousElement in
      if (if isDescending then 0 <=? order else order <? 0) then O
      else S (run_length isDescending currentElement rest)
  end.

(** What holds of two neighbours [x], [y] within a run. *)
Definition run_order (isDescending : bool) (x y : A) : Prop :=
  if isDescending then comparefn y x < 0 else 0 ≤ comparefn y x.

(** The binary search of [BinaryInsertionSort] in [work[left..right)]. *)
Fixpoint insertion_point (fuel : nat) (pivot : A) (work : list A)
  (left right : nat) : nat :=
  match fuel with
  | O => left
  | S fuel =>
      if (left <? right)%nat then
        let mid := (left + (right - left) / 2)%nat in
        match work !! mid with
        | Some element =>
            if comparefn pivot element <? 0
            then insertion_point fuel pivot work left mid
            else insertion_point fuel pivot work (mid + 1) right
        | None => left
        end
      else left
  end.

(** [sorted] is the part of the array already in order, [rest] the
    elements still to be placed, first to last. *)
Fixpoint BinaryInsertionSort (sorted rest : list A) : list A :=
  match rest with
  | [] => sorted
  | pivot :: rest =>
      let left :=
        insertion_point (length sorted) pivot sorted 0 (length sorted) in
      BinaryInsertionSort (take left sorted ++ pivot :: drop left sorted) rest
  end.

Definition Array_sort (items : list A) : list A :=
  match items with
  | elementHigh :: elementLow :: rest =>
      let isDescending := comparefn elementLow elementHigh <? 0 in
      let n := run_length isDescending elementLow rest in
      let run := elementHigh :: elementLow :: take n rest in
      BinaryInsertionSort (if isDescending then reverse run else run)
        (drop n rest)
  | _ => items
  end.

(** The stable insertion sort, which moves an element past exactly the
    elements it compares greater than: the sort the engine's result is
    measured against. *)
Fixpoint sort_insert (x : A) (sorted : list A) : list A :=
  match sorted with
  | [] => [x]
  | y :: rest =>
      if 0 <? comparefn x y then y :: sort_insert x rest
      else x :: sorted
  end.

Fixpoint insertion_sort (items : list A) : list A :=
  match items with
  | [] => []
  | x :: rest => sort_insert x (insertion_sort rest)
  end.

(** [x] may stay in front of [y]: it does not compare greater. *)
Definition keeps (x y : A) : Prop := comparefn x y ≤ 0.

(** The comparison function is consistent on [l] when "does not compare
    greater" is transitive on the elements of [l]. *)
Definition consistent (l : list A) : Prop :=
  ∀ x y z, x ∈ l → y ∈ l → z ∈ l → keeps x y → keeps y z → keeps x z.

(** The same, as a check over the triples of [l]. *)
Definition consistentb (l : list A) : bool :=
  forallb (λ x, forallb (λ y, forallb (λ z,
    implb (comparefn x y <=? 0)
      (implb (comparefn y z <=? 0) (comparefn x z <=? 0))) l) l) l.

(** The elements tied with [x]. *)
Definition tied (x y : A) : Prop := comparefn x y = 0.
End ArraySort.

#[global] Instance tied_dec {A} (comparefn : A → A → Z) x y :
  Decision (tied comparefn x y) := Z.eq_dec _ _.

(** ** Objects on the heap of the sorting component *)

Definition Ref := nat.

(** A record: attribute name to primitive. *)
Definition Row := gmap string Scalar.

(** [a[field]] on a record: an attribute the record does not hold reads
    as [undefined].  (An object literal also inherits the members of
    [Object.prototype]; their names, such as [constructor] and [toString],
    are not field names of records.) *)
Definition getField (a : Row) (field : string) : Scalar :=
  default JsUndefined (a !! field).

(** The heap holds the record objects, the array objects (sequences of
    references to records) and the owner objects, whose attributes hold
    references to arrays. *)
Record Heap := mkHeap {
  records : gmap Ref Row;
  arrays : gmap Ref (list Ref);
  owners : gmap Ref (gmap string Ref)
}.

(** The record an element of an array refers to.  The elements of the
    arrays of the model are references to records; an array that holds
    [null] or [undefined], on which [a[field]] throws, is outside it. *)
Definition deref (h : Heap) (r : Ref) : Row :=
  default ∅ (records h !! r).

(** [[...source]] on an array: a new array object with the elements of
    [source]; it fails on a reference to no array. *)
Definition spread (source : Ref) (h : Heap) : option (Ref * Heap) :=
  elems ← arrays h !! source;
  let fresh_ref := fresh (dom (arrays h)) in
  Some (fresh_ref,
        mkHeap (records h) (<[fresh_ref := elems]> (arrays h)) (owners h)).

(** [array.sort(comparefn)]: sorts the array object in place. *)
Definition sort_in_place (array : Ref) (comparefn : Row → Row → Z) (h : Heap)
  : option Heap :=
  elems ← arrays h !! array;
  let sorted := Array_sort (λ a b, comparefn (deref h a) (deref h b)) elems in
  Some (mkHeap (records h) (<[array := sorted]> (arrays h)) (owners h)).

(** [owner[slot]] and [owner[slot] = array]. *)
Definition readSlot (owner : Ref) (slot : string) (h : Heap) : option Ref :=
  o ← owners h !! owner; o !! slot.

Definition writeSlot (owner : Ref) (slot : string) (array : Ref) (h : Heap)
  : option Heap :=
  o ← owners h !! owner;
  Some (mkHeap (records h) (arrays h) (<[owner := <[slot := array]> o]> (owners h))).

(** The sort event of the datatable: what [event.detail] holds. *)
Module SortEvent.
Record detail := mk {
  fieldName : string;
  sortDirection : string
}.
End SortEvent.

(** ** The reusable class *)
Module DatatableSorter.

Record t := mk {
  defaultSortDirection : string;
  sortDirection : string;
  sortedBy : option string;
  parent : Ref;
  dataFieldName : string
}.

(** The field initialisers and the constructor body.  [protectThis(this)]
    rebinds the methods of the new object (see [ProtectThis] below), which
    is why [sortData] and [sortBy] take [this] as the sorter wherever they
    are called from; it writes none of these fields. *)
Definition constructor (parent : Ref) (dataFieldName : string) : t :=
  {| defaultSortDirection := "asc";
     sortDirection := "asc";
     sortedBy := None;
     parent := parent;
     dataFieldName := dataFieldName |}.

Definition sortBy (field : string) (reverse : Z) : Row → Row → Z :=
  λ a b,
    let a := getField a field in
    let b := getField b field in
    reverse * (Z.b2z (js_gt a b) - Z.b2z (js_gt b a)).

(** The factor handed to [sortBy]: [sortDirection === 'asc' ? -1 : 1]. *)
Definition reverseOf (sortDirection : string) : Z :=
  if String.eqb sortDirection "asc" then -1 else 1.

(** [sortData(event)], with [detail] standing for [event.detail]; [None]
    is the TypeError raised when the slot holds no sequence. *)
Definition sortData (detail : SortEvent.detail) (this : t) (h : Heap)
  : option (t * Heap) :=
  let fieldName := SortEvent.fieldName detail in
  let sortDirection := SortEvent.sortDirection detail in
  source ← readSlot (parent this) (dataFieldName this) h;
  '(cloneData, h) ← spread source h;
  h ← sort_in_place cloneData (sortBy fieldName (reverseOf sortDirection)) h;
  h ← writeSlot (parent this) (dataFieldName this) cloneData h;
  Some ({| defaultSortDirection := defaultSortDirection this;
           sortDirection := sortDirection;
           sortedBy := Some fieldName;
           parent := parent this;
           dataFieldName := dataFieldName this |}, h).

(** What the owner's slot publishes: the elements of the array it holds. *)
Definition published (this : t) (h : Heap) : option (list Ref) :=
  array ← readSlot (parent this) (dataFieldName this) h;
  arrays h !! array.

End DatatableSorter.

(** ** The demo component *)
Module DemoApp.

Record t := mk {
  data : Ref;
  defaultSortDirection : string;
  sortDirection : string;
  sortedBy : option string
}.

(** The field initialisers, with [data] the module's array. *)
Definition init (data : Ref) : t :=
  {| data := data;
     defaultSortDirection := "asc";
     sortDirection := "asc";
     sortedBy := None |}.

Definition sortBy (field : string) (reverse : Z)
  (primer : option (Scalar → Scalar)) : Row → Row → Z :=
  let key :=
    match primer with
    | Some primer => λ x, primer (getField x field)
    | None => λ x, getField x field
    end in
  λ a b,
    let a := key a in
    let b := key b in
    reverse * (Z.b2z (js_gt a b) - Z.b2z (js_gt b a)).

(** The factor handed to [sortBy]: [sortDirection === 'asc' ? 1 : -1]. *)
Definition reverseOf (sortDirection : string) : Z :=
  if String.eqb sortDirection "asc" then 1 else -1.

(** [onHandleSort(event)], with [detail] standing for [event.detail]. *)
Definition onHandleSort (detail : SortEvent.detail) (this : t) (h : Heap)
  : option (t * Heap) :=
  let sortedBy := SortEvent.fieldName detail in
  let sortDirection := SortEvent.sortDirection detail in
  '(cloneData, h) ← spread (data this) h;
  h ← sort_in_place cloneData (sortBy sortedBy (reverseOf sortDirection) None) h;
  Some ({| data := cloneData;
           defaultSortDirection := defaultSortDirection this;
           sortDirection := sortDirection;
           sortedBy := Some sortedBy |}, h).

Definition published (this : t) (h : Heap) : option (list Ref) :=
  arrays h !! data this.

End DemoApp.

(** ** The demo data *)

Definition row (id : Z) (name : string) (age : Z) (email : string) : Row :=
  <["id" := JsNumber id]> (<["name" := JsString name]>
    (<["age" := JsNumber age]> (<["email" := JsString email]> ∅))).

Definition data : list Row :=
  [ row 1 "Billy Simonns" 40 "billy@salesforce.com";
    row 2 "Kelsey Denesik" 35 "kelsey@salesforce.com";
    row 3 "Kyle Ruecker" 50 "kyle@salesforce.com";
    row 4 "Krystina Kerluke" 37 "krystina@salesforce.com" ].

(** A heap holding [rows] at references [1..n], one array (reference [0])
    listing them in order, and one owner (reference [0]) whose attribute
    [slot] holds that array. *)
Definition heap_of (slot : string) (rows : list Row) : Heap :=
  mkHeap (list_to_map (zip (seq 1 (length rows)) rows))
         {[ 0%nat := seq 1 (length rows) ]}
         {[ 0%nat := {[ slot := 0%nat ]} ]}.

Definition column (field : string) (h : Heap) (l : list Ref) : list Scalar :=
  (λ r, getField (deref h r) field) <$> l.

(** The comparison function the sort receives, on references. *)
Definition compareRefs (h : Heap) (field : string) (reverse : Z) (a b : Ref)
  : Z :=
  DatatableSorter.sortBy field reverse (deref h a) (deref h b).

(** The column [field] of a published sequence. *)
Definition publishedColumn (field : string)
  (result : option (DatatableSorter.t * Heap)) : option (list Scalar) :=
  '(this, h) ← result;
  column field h <$> DatatableSorter.published this h.

Definition ages (l : list Z) : list Row :=
  (λ n, {[ "age" := JsNumber n ]}) <$> l.

(** Records holding the given values at [age]. *)
Definition agesOf (l : list Scalar) : list Row :=
  (λ v, {[ "age" := v ]}) <$> l.

(** Seven records that all hold a number at [age], the fifth one NaN. *)
Definition unstableRows : list Row :=
  agesOf [JsNumber 2; JsNumber 1; JsNumber 1; JsNumber 1; JsNaN;
          JsNumber 1; JsNumber 1].

Definition sorterOn (rows : list Row) (sortDirection : string)
  : option (DatatableSorter.t * Heap) :=
  DatatableSorter.sortData (SortEvent.mk "age" sortDirection)
    (DatatableSorter.constructor 0%nat "data") (heap_of "data" rows).

(** ** Objects with methods: the heap [protectThis] works on *)
Module ProtectThis.

(** Values: primitives, references to objects, and functions.  A function
    is either one defined elsewhere (a method of a class, named by its
    code) or the closure [protectThis] creates, which holds the two
    variables it captures. *)
Inductive Value :=
  | VUndefined
  | VNull
  | VBoolean (b : bool)
  | VNumber (n : Z)
  | VString (s : string)
  | VObject (r : Ref)
  | VNative (code : nat)
  | VProtected (initialFunctionDefinition : Value) (object : Ref).

(** An object: its prototype ([None] is null) and its own properties.
    The objects are ordinary ones, as instances of classes are: extensible,
    and their properties writable data properties. *)
Record Object := mkObject {
  prototype : option Ref;
  properties : gmap string Value
}.

Abbreviation ObjectHeap := (gmap Ref Object).

Definition typeof (v : Value) : string :=
  match v with
  | VUndefined => "undefined"
  | VNull => "object"
  | VBoolean _ => "boolean"
  | VNumber _ => "number"
  | VString _ => "string"
  | VObject _ => "object"
  | VNative _ => "function"
  | VProtected _ _ => "function"
  end.

(** [object[name]]: the own property, else the prototype's, and so on
    along the chain. *)
Fixpoint lookup_chain (fuel : nat) (h : ObjectHeap) (object : Ref)
  (name : string) : Value :=
  match fuel with
  | O => VUndefined
  | S fuel =>
      match h !! object with
      | None => VUndefined
      | Some o =>
          match properties o !! name with
          | Some v => v
          | None =>
              match prototype o with
              | Some proto => lookup_chain fuel h proto name
              | None => VUndefined
              end
          end
      end
  end.

(** The objects a lookup from [object] visits. *)
Fixpoint chain (fuel : nat) (h : ObjectHeap) (object : Ref) : list Ref :=
  match fuel with
  | O => []
  | S fuel =>
      match h !! object with
      | None => []
      | Some o =>
          object :: match prototype o with
                    | Some proto => chain fuel h proto
                    | None => []
                    end
      end
  end.

(** A prototype chain has no cycle, so it visits at most [size h] objects
    ([getProperty_fuel]). *)
Definition getProperty (h : ObjectHeap) (object : Ref) (name : string) : Value :=
  lookup_chain (size h) h object name.

(** [object[name] = v]: writes the own property of [object], which on the
    objects of the model always succeeds. *)
Definition setProperty (h : ObjectHeap) (object : Ref) (name : string) (v : Value)
  : ObjectHeap :=
  match h !! object with
  | Some o => <[object := mkObject (prototype o) (<[name := v]> (properties o))]> h
  | None => h
  end.

Definition getOwnPropertyNames (o : Object) : list string :=
  (map_to_list (properties o)).*1.

(** How a call ends. *)
Inductive Completion :=
  | Return (v : Value)
  | Throw (v : Value).

Definition TypeError : Value := VString "TypeError".

Section Call.
(** The bodies of the functions defined elsewhere: code, [this],
    arguments and heap to the heap and completion of the call. *)
Variable native :
  nat → Value → list Value → ObjectHeap → ObjectHeap * Completion.

(** [f.apply(this, arguments)].  The closure of [protectThis] ignores its
    own [this] and returns
    [initialFunctionDefinition.apply(object, arguments)]. *)
Fixpoint call (f : Value) (this : Value) (arguments : list Value)
  (h : ObjectHeap) : ObjectHeap * Completion :=
  match f with
  | VNative code => native code this arguments h
  | VProtected initialFunctionDefinition object =>
      call initialFunctionDefinition (VObject object) arguments h
  | _ => (h, Throw TypeError)
  end.
End Call.

(** [Object.getOwnPropertyNames(Object.getPrototypeOf(object))
      .filter(maybeFunctionName => typeof object[maybeFunctionName] === 'function')];
    [None] is the TypeError raised for a null prototype. *)
Definition functionNames (object : Ref) (h : ObjectHeap) : option (list string) :=
  o ← h !! object;
  proto ← prototype o;
  p ← h !! proto;
  Some (filter (λ maybeFunctionName,
                  typeof (getProperty h object maybeFunctionName) = "function")
          (getOwnPropertyNames p)).

(** One round of the [forEach]. *)
Definition protectOne (object : Ref) (h : ObjectHeap) (functionName : string)
  : ObjectHeap :=
  let initialFunctionDefinition := getProperty h object functionName in
  setProperty h object functionName (VProtected initialFunctionDefinition object).

Definition protectThis (object : Ref) (h : ObjectHeap) : option ObjectHeap :=
  names ← functionNames object h;
  Some (foldl (protectOne object) h names).

(** Whether the prototype chain of [r] stays clear of [object]. *)
Fixpoint avoids (fuel : nat) (h : ObjectHeap) (r object : Ref) : bool :=
  match fuel with
  | O => true
  | S fuel =>
      if decide (r = object) then false
      else match h !! r with
           | Some o =>
               match prototype o with
               | Some proto => avoids fuel h proto object
               | None => true
               end
           | None => true
           end
  end.

(** [protectThis] applied [n] times to the same object. *)
Fixpoint protectTimes (n : nat) (object : Ref) (h : ObjectHeap)
  : option ObjectHeap :=
  match n with
  | O => Some h
  | S n => h ← protectThis object h; protectTimes n object h
  end.

(** *** A class, a subclass and two instances

    [class Base { who() { return this; } }],
    [class Derived extends Base { getName() { return this.name; } }];
    the object 0 is [Object.prototype], 1 and 2 are the prototypes of the
    two classes, 3 and 4 are two instances of [Derived].  A class
    constructor called without [new] throws. *)
Definition exampleNative (code : nat) (this : Value) (arguments : list Value)
  (h : ObjectHeap) : ObjectHeap * Completion :=
  match code with
  | 1%nat => (h, Return this)
  | 2%nat =>
      match this with
      | VObject r => (h, Return (getProperty h r "name"))
      | _ => (h, Throw TypeError)
      end
  | 3%nat => (h, Return (VString "[object Object]"))
  | _ => (h, Throw TypeError)
  end.

Definition exampleHeap : ObjectHeap :=
  {[ 0%nat := mkObject None {[ "toString" := VNative 3 ]};
     1%nat := mkObject (Some 0%nat)
                {[ "constructor" := VNative 0; "who" := VNative 1 ]};
     2%nat := mkObject (Some 1%nat)
                {[ "constructor" := VNative 0; "getName" := VNative 2 ]};
     3%nat := mkObject (Some 2%nat) {[ "name" := VString "first" ]};
     4%nat := mkObject (Some 2%nat) {[ "name" := VString "second" ]} ]}.

(** [new DatatableSorter(parent, dataFieldName)] on this heap, with
    [classPrototype] the object [DatatableSorter.prototype]: the new object
    gets its five fields (the two without initialiser hold [undefined]),
    then the constructor body runs: [protectThis(this)] and the two
    assignments.  The result is the new object and the heap. *)
Definition newDatatableSorter (classPrototype : Ref) (parent dataFieldName : Value)
  (h : ObjectHeap) : option (Ref * ObjectHeap) :=
  let this := fresh (dom h) in
  let h := <[this := mkObject (Some classPrototype)
               {[ "defaultSortDirection" := VString "asc";
                  "sortDirection" := VString "asc";
                  "sortedBy" := VNull;
                  "parent" := VUndefined;
                  "dataFieldName" := VUndefined ]}]> h in
  h ← protectThis this h;
  let h := setProperty h this "parent" parent in
  let h := setProperty h this "dataFieldName" dataFieldName in
  Some (this, h).

(** A heap with [Object.prototype] (0), [DatatableSorter.prototype] (1)
    and an owner component (2); the codes 4 and 5 stand for the bodies of
    [sortBy] and [sortData]. *)
Definition sorterClassHeap : ObjectHeap :=
  {[ 0%nat := mkObject None {[ "toString" := VNative 3 ]};
     1%nat := mkObject (Some 0%nat)
                {[ "constructor" := VNative 0;
                   "sortBy" := VNative 4;
                   "sortData" := VNative 5 ]};
     2%nat := mkObject (Some 0%nat) ∅ ]}.

(** The same heap with an object 5 created from the instance 3,
    [Object.create(instance)], and given a name of its own. *)
Definition exampleHeapWithChild : ObjectHeap :=
  <[5%nat := mkObject (Some 3%nat) {[ "name" := VString "child" ]}]> exampleHeap.

End ProtectThis.

(** * Part II: properties *)

(** ** Facts about the sort *)

Section InsertionSortFacts.
Context {A : Type}.
Variable comparefn : A → A → Z.

Lemma sort_insert_perm x l : sort_insert comparefn x l ≡ₚ x :: l.
Proof.
  induction l as [|y l IH]; simpl; [done|].
  destruct (0 <? comparefn x y); [|done].
  rewrite IH. apply Permutation_swap.
Qed.

Lemma insertion_sort_perm l : insertion_sort comparefn l ≡ₚ l.
Proof.
  induction l as [|x l IH]; simpl; [done|].
  by rewrite sort_insert_perm, IH.
Qed.

Lemma elem_of_insertion_sort x l : x ∈ insertion_sort comparefn l ↔ x ∈ l.
Proof. by rewrite insertion_sort_perm. Qed.

(** Stability: elements that never compare greater than one another keep
    their order. *)
Lemma sort_insert_filter (P : A → Prop) `{!∀ x, Decision (P x)} x l :
  (∀ y, y ∈ l → P x → P y → keeps comparefn x y) →
  filter P (sort_insert comparefn x l) = filter P (x :: l).
Proof.
  unfold keeps. induction l as [|y l IH]; intros Hle; simpl; [done|].
  destruct (0 <? comparefn x y) eqn:Hc; [|done].
  apply Z.ltb_lt in Hc.
  assert (IH' : filter P (sort_insert comparefn x l) = filter P (x :: l)).
  { apply IH. intros z Hz. apply Hle. by right. }
  rewrite !filter_cons in *.
  destruct (decide (P y)) as [Hy|Hy], (decide (P x)) as [Hx|Hx];
    try (by rewrite IH').
  specialize (Hle y (list_elem_of_here _ _) Hx Hy). lia.
Qed.

Lemma insertion_sort_filter (P : A → Prop) `{!∀ x, Decision (P x)} l :
  (∀ x y, x ∈ l → y ∈ l → P x → P y → keeps comparefn x y) →
  filter P (insertion_sort comparefn l) = filter P l.
Proof.
  induction l as [|x l IH]; intros Hle; simpl; [done|].
  rewrite sort_insert_filter.
  - rewrite !filter_cons, IH; [done|].
    intros a b Ha Hb. apply Hle; by right.
  - intros y Hy. apply Hle; [left|right]. by apply elem_of_insertion_sort.
Qed.

(** The comparison functions of the program are antisymmetric. *)
Hypothesis antisym : ∀ x y, comparefn y x = - comparefn x y.

Lemma HdRel_sort_insert a x l :
  keeps comparefn a x → HdRel (keeps comparefn) a l →
  HdRel (keeps comparefn) a (sort_insert comparefn x l).
Proof.
  intros Hax Hal. destruct l as [|y l]; simpl; [by constructor|].
  destruct (0 <? comparefn x y); constructor; [|done].
  by inversion Hal.
Qed.

Lemma Sorted_sort_insert x l :
  Sorted (keeps comparefn) l →
  Sorted (keeps comparefn) (sort_insert comparefn x l).
Proof.
  induction 1 as [|y l Hl IH Hhd]; simpl; [by repeat constructor|].
  destruct (0 <? comparefn x y) eqn:Hc.
  - apply Z.ltb_lt in Hc. constructor; [done|].
    apply HdRel_sort_insert; [|done].
    unfold keeps. rewrite antisym. lia.
  - apply Z.ltb_ge in Hc. repeat constructor; done.
Qed.

Lemma Sorted_insertion_sort l : Sorted (keeps comparefn) (insertion_sort comparefn l).
Proof.
  induction l; simpl; [constructor|]. by apply Sorted_sort_insert.
Qed.

(** A sequence in which no element compares greater than its successor is
    left as it is. *)
Lemma insertion_sort_Sorted_id l :
  Sorted (keeps comparefn) l → insertion_sort comparefn l = l.
Proof.
  induction 1 as [|x l Hl IH Hhd]; simpl; [done|].
  rewrite IH. destruct Hhd as [|y l' Hxy]; simpl; [done|].
  unfold keeps in Hxy.
  destruct (0 <? comparefn x y) eqn:Hc; [|done].
  apply Z.ltb_lt in Hc. lia.
Qed.

Lemma insertion_sort_idempotent l :
  insertion_sort comparefn (insertion_sort comparefn l) = insertion_sort comparefn l.
Proof. apply insertion_sort_Sorted_id, Sorted_insertion_sort. Qed.

Lemma StronglySorted_sort_insert x l :
  consistent comparefn (x :: l) →
  StronglySorted (keeps comparefn) l →
  StronglySorted (keeps comparefn) (sort_insert comparefn x l).
Proof.
  intros Hcons. induction 1 as [|y l Hl IH Hall]; simpl.
  { repeat constructor. }
  assert (Hcons' : consistent comparefn (x :: l)).
  { intros a b c Ha Hb Hc. apply Hcons; revert Ha Hb Hc;
      rewrite !elem_of_cons; tauto. }
  destruct (0 <? comparefn x y) eqn:Hc.
  - apply Z.ltb_lt in Hc. constructor; [by apply IH|].
    apply Forall_forall. intros z Hz.
    rewrite sort_insert_perm in Hz. apply elem_of_cons in Hz as [->|Hz].
    + unfold keeps. rewrite antisym. lia.
    + by eapply Forall_forall in Hall.
  - apply Z.ltb_ge in Hc. constructor; [by constructor|].
    constructor; [done|].
    apply Forall_forall. intros z Hz.
    apply (Hcons x y z); [rewrite !elem_of_cons; tauto..|done|].
    by eapply Forall_forall in Hall.
Qed.

Lemma StronglySorted_insertion_sort l :
  consistent comparefn l →
  StronglySorted (keeps comparefn) (insertion_sort comparefn l).
Proof.
  induction l as [|x l IH]; intros Hcons; simpl; [constructor|].
  apply StronglySorted_sort_insert.
  - intros a b c. rewrite !elem_of_cons, !elem_of_insertion_sort.
    intros Ha Hb Hc. apply Hcons; by rewrite elem_of_cons.
  - apply IH. intros a b c Ha Hb Hc. apply Hcons; by right.
Qed.

Lemma consistentb_sound l :
  consistentb comparefn l = true → consistent comparefn l.
Proof.
  unfold consistentb, consistent, keeps. intros Hb x y z Hx Hy Hz Hxy Hyz.
  rewrite forallb_forall in Hb.
  specialize (Hb x (proj1 (list_elem_of_In _ _) Hx)).
  rewrite forallb_forall in Hb.
  specialize (Hb y (proj1 (list_elem_of_In _ _) Hy)).
  rewrite forallb_forall in Hb.
  specialize (Hb z (proj1 (list_elem_of_In _ _) Hz)).
  apply Z.leb_le in Hxy, Hyz. rewrite Hxy, Hyz in Hb. simpl in Hb.
  by apply Z.leb_le.
Qed.

(** Two sorted arrangements of the same elements that list the elements
    tied with any given one in the same order are equal. *)
Lemma stable_sorted_unique l1 l2 :
  l1 ≡ₚ l2 →
  StronglySorted (keeps comparefn) l1 → StronglySorted (keeps comparefn) l2 →
  (∀ x, x ∈ l1 → filter (tied comparefn x) l1 = filter (tied comparefn x) l2) →
  l1 = l2.
Proof.
  assert (Hrefl : ∀ a, comparefn a a = 0).
  { intros a. pose proof (antisym a a). lia. }
  revert l2. induction l1 as [|a t1 IH]; intros l2 Hperm Hs1 Hs2 Hties.
  { by apply Permutation_nil_l in Hperm. }
  destruct l2 as [|b t2].
  { by apply Permutation_nil_r in Hperm. }
  apply StronglySorted_inv in Hs1 as [Hs1 Ha].
  apply StronglySorted_inv in Hs2 as [Hs2 Hb].
  assert (Hab : keeps comparefn a b).
  { assert (Hin : b ∈ a :: t1) by (rewrite Hperm; left).
    apply elem_of_cons in Hin as [->|Hin]; [unfold keeps; by rewrite Hrefl|].
    by eapply Forall_forall in Ha. }
  assert (Hba : keeps comparefn b a).
  { assert (Hin : a ∈ b :: t2) by (rewrite <- Hperm; left).
    apply elem_of_cons in Hin as [->|Hin]; [unfold keeps; by rewrite Hrefl|].
    by eapply Forall_forall in Hb. }
  assert (Heq : a = b).
  { pose proof (Hties a (list_elem_of_here _ _)) as Hf.
    rewrite !filter_cons in Hf.
    rewrite decide_True in Hf by apply Hrefl.
    rewrite decide_True in Hf; [congruence|].
    unfold tied, keeps in *. rewrite (antisym a b) in Hba. lia. }
  subst b. f_equal. apply IH; [by eapply Permutation_cons_inv|done..|].
  intros x Hx. specialize (Hties x (list_elem_of_further _ _ _ Hx)).
  rewrite !filter_cons in Hties.
  destruct (decide (tied comparefn x a)); congruence.
Qed.

(** For a consistent comparison function the outcome of a stable sort is
    determined, and it is the one of the model. *)
Theorem insertion_sort_canonical l out :
  consistent comparefn l →
  out ≡ₚ l →
  StronglySorted (keeps comparefn) out →
  (∀ x, x ∈ l → filter (tied comparefn x) out = filter (tied comparefn x) l) →
  out = insertion_sort comparefn l.
Proof.
  intros Hcons Hperm Hsorted Hties.
  apply stable_sorted_unique; [by rewrite insertion_sort_perm|done|
    by apply StronglySorted_insertion_sort|].
  intros x Hx. rewrite Hperm in Hx. rewrite (Hties x Hx).
  symmetry. apply insertion_sort_filter.
  intros a b Ha Hb Hxa Hxb. unfold tied in *.
  apply (Hcons a x b Ha Hx Hb); unfold keeps; [|lia].
  rewrite (antisym x a). lia.
Qed.
End InsertionSortFacts.

Lemma StronglySorted_lookup {A} (R : relation A) l i j x y :
  StronglySorted R l → (i < j)%nat → l !! i = Some x → l !! j = Some y → R x y.
Proof.
  intros Hl. revert i j. induction Hl as [|a l Hl IH Hall]; intros i j Hij Hi Hj.
  { done. }
  destruct j as [|j]; [lia|]. simpl in Hj.
  destruct i as [|i]; simpl in Hi.
  - injection Hi as ->. eapply Forall_forall; [done|].
    by eapply list_elem_of_lookup_2.
  - apply (IH i j); [lia|done..].
Qed.

(** ** The engine's sort *)
Section ArraySortFacts.
Context {A : Type}.
Variable comparefn : A → A → Z.

Lemma insert_at_perm (left : nat) (pivot : A) (sorted : list A) :
  take left sorted ++ pivot :: drop left sorted ≡ₚ pivot :: sorted.
Proof. by rewrite <- Permutation_middle, take_drop. Qed.

Lemma BinaryInsertionSort_perm (sorted rest : list A) :
  BinaryInsertionSort comparefn sorted rest ≡ₚ sorted ++ rest.
Proof.
  revert sorted. induction rest as [|pivot rest IH]; intros sorted; simpl.
  { by rewrite app_nil_r. }
  rewrite IH, insert_at_perm. simpl. by rewrite Permutation_middle.
Qed.

(** The result holds the elements of the array, each as often as the array
    does, whatever the comparison function. *)
Lemma Array_sort_perm l : Array_sort comparefn l ≡ₚ l.
Proof.
  destruct l as [|elementHigh [|elementLow rest]]; [done..|].
  unfold Array_sort. rewrite BinaryInsertionSort_perm.
  set (n := run_length _ _ _ _).
  assert (Hrun : elementHigh :: elementLow :: take n rest ++ drop n rest
                 = elementHigh :: elementLow :: rest) by (by rewrite take_drop).
  destruct (comparefn elementLow elementHigh <? 0).
  - rewrite reverse_Permutation. simpl. by rewrite take_drop.
  - simpl. by rewrite take_drop.
Qed.

Lemma elem_of_Array_sort x l : x ∈ Array_sort comparefn l ↔ x ∈ l.
Proof. by rewrite Array_sort_perm. Qed.

(** The binary search ends between an element the pivot does not compare
    less than and an element it compares less than. *)
Lemma insertion_point_spec pivot work fuel left right :
  (left ≤ right)%nat → (right ≤ length work)%nat → (right - left ≤ fuel)%nat →
  (left = O ∨ ∃ e, work !! (left - 1)%nat = Some e ∧ 0 ≤ comparefn pivot e) →
  (right = length work ∨ ∃ e, work !! right = Some e ∧ comparefn pivot e < 0) →
  let p := insertion_point comparefn fuel pivot work left right in
  (p ≤ length work)%nat ∧
  (p = O ∨ ∃ e, work !! (p - 1)%nat = Some e ∧ 0 ≤ comparefn pivot e) ∧
  (p = length work ∨ ∃ e, work !! p = Some e ∧ comparefn pivot e < 0).
Proof.
  revert left right.
  induction fuel as [|fuel IH]; intros left right Hlr Hr Hfuel Hl Hrt;
    cbn [insertion_point].
  { assert (left = right) as -> by lia. split; [done|]. by split. }
  destruct (left <? right)%nat eqn:Hlt.
  2:{ apply Nat.ltb_ge in Hlt. assert (left = right) as -> by lia.
      split; [done|]. by split. }
  apply Nat.ltb_lt in Hlt.
  pose proof (Nat.div_lt (right - left) 2 ltac:(lia) ltac:(lia)) as Hdiv.
  set (mid := (left + (right - left) / 2)%nat) in *.
  assert (Hmid : (left ≤ mid ∧ mid < right)%nat) by (unfold mid; lia).
  destruct (lookup_lt_is_Some_2 work mid ltac:(lia)) as [element He].
  rewrite He.
  destruct (comparefn pivot element <? 0) eqn:Hc.
  - apply Z.ltb_lt in Hc. apply IH; [lia..|done|].
    right. by exists element.
  - apply Z.ltb_ge in Hc. apply IH; [lia..| |done].
    right. exists element. by replace (mid + 1 - 1)%nat with mid by lia.
Qed.

Lemma Sorted_mono (R R' : relation A) l :
  (∀ x y, R x y → R' x y) → Sorted R l → Sorted R' l.
Proof.
  intros Hsub. induction 1 as [|x l Hl IH Hhd]; constructor; [done|].
  destruct Hhd; constructor; auto.
Qed.

Lemma Sorted_snoc (R : relation A) l x :
  Sorted R l → (∀ y, last l = Some y → R y x) → Sorted R (l ++ [x]).
Proof.
  induction 1 as [|a l Hl IH Hhd]; intros Hlast; simpl.
  { repeat constructor. }
  constructor.
  - apply IH. intros y Hy. apply Hlast. destruct l; [done|]. exact Hy.
  - destruct Hhd as [|b l' Hab]; simpl; constructor; [|done].
    by apply Hlast.
Qed.

Lemma Sorted_reverse (R : relation A) l :
  Sorted R l → Sorted (flip R) (reverse l).
Proof.
  induction 1 as [|a l Hl IH Hhd]; [constructor|].
  rewrite reverse_cons. apply Sorted_snoc; [done|].
  intros y Hy. rewrite last_reverse in Hy.
  destruct Hhd as [|b l' Hab]; simpl in Hy; [done|].
  injection Hy as <-. exact Hab.
Qed.

(** Placing [x] between an element that may stay in front of it and one it
    may stay in front of keeps a sequence in order. *)
Lemma Sorted_insert_at (R : relation A) l (p : nat) x :
  Sorted R l →
  (p = O ∨ ∃ e, l !! (p - 1)%nat = Some e ∧ R e x) →
  (p = length l ∨ ∃ e, l !! p = Some e ∧ R x e) →
  Sorted R (take p l ++ x :: drop p l).
Proof.
  intros Hl. revert p. induction Hl as [|a l Hl IH Hhd]; intros p Hleft Hright.
  { rewrite take_nil, drop_nil. repeat constructor. }
  destruct p as [|p]; simpl.
  - constructor; [by constructor|]. constructor.
    destruct Hright as [?|(e & He & Hxe)]; [done|].
    simpl in He. by injection He as <-.
  - destruct Hleft as [?|(e & He & Hex)]; [done|].
    simpl in He. rewrite Nat.sub_0_r in He.
    constructor.
    + apply IH.
      * destruct p as [|p]; [by left|]. right. exists e.
        simpl. by rewrite Nat.sub_0_r.
      * destruct Hright as [Hp|(e' & He' & Hxe')].
        -- left. simpl in Hp. lia.
        -- right. by exists e'.
    + destruct p as [|p]; simpl.
      * simpl in He. injection He as <-. by constructor.
      * destruct Hhd as [|b l' Hab]; simpl; by constructor.
Qed.

Lemma run_length_le isDescending previousElement rest :
  (run_length comparefn isDescending previousElement rest ≤ length rest)%nat.
Proof.
  revert previousElement.
  induction rest as [|currentElement rest IH]; intros previousElement; simpl;
    [done|].
  destruct (if isDescending then _ else _); [lia|].
  specialize (IH currentElement). lia.
Qed.

(** The run found is non-descending, or strictly descending. *)
Lemma Sorted_run isDescending previousElement rest :
  Sorted (run_order comparefn isDescending)
    (previousElement ::
       take (run_length comparefn isDescending previousElement rest) rest).
Proof.
  revert previousElement.
  induction rest as [|currentElement rest IH]; intros previousElement; simpl.
  { repeat constructor. }
  destruct (if isDescending then _ else _) eqn:Hstop; simpl.
  { repeat constructor. }
  constructor; [apply IH|]. constructor.
  unfold run_order.
  destruct isDescending; [apply Z.leb_gt in Hstop|apply Z.ltb_ge in Hstop]; done.
Qed.

Lemma run_length_Sorted previousElement rest :
  (∀ x y, comparefn y x = - comparefn x y) →
  Sorted (keeps comparefn) (previousElement :: rest) →
  run_length comparefn false previousElement rest = length rest.
Proof.
  intros antisym. revert previousElement.
  induction rest as [|currentElement rest IH]; intros previousElement Hs;
    simpl; [done|].
  apply Sorted_inv in Hs as [Hs Hhd]. apply HdRel_inv in Hhd.
  unfold keeps in Hhd. rewrite (antisym previousElement currentElement).
  destruct (- comparefn previousElement currentElement <? 0) eqn:Hc.
  { apply Z.ltb_lt in Hc. lia. }
  by rewrite IH.
Qed.

Lemma Sorted_StronglySorted_on (R : relation A) l :
  (∀ x y z, x ∈ l → y ∈ l → z ∈ l → R x y → R y z → R x z) →
  Sorted R l → StronglySorted R l.
Proof.
  intros Htrans Hl. induction Hl as [|a l Hl IH Hhd]; [constructor|].
  assert (Hs : StronglySorted R l).
  { apply IH. intros x y z Hx Hy Hz. apply Htrans; by right. }
  constructor; [done|].
  destruct Hhd as [|b l' Hab]; [constructor|].
  apply StronglySorted_inv in Hs as [_ Hall].
  constructor; [done|].
  apply Forall_forall. intros z Hz.
  apply (Htrans a b z); [left|right; left|by do 2 right|done|].
  by eapply Forall_forall in Hall.
Qed.

(** The comparison functions of the program are antisymmetric. *)
Hypothesis antisym : ∀ x y, comparefn y x = - comparefn x y.

Lemma Sorted_insertion_step pivot sorted :
  Sorted (keeps comparefn) sorted →
  let left :=
    insertion_point comparefn (length sorted) pivot sorted 0 (length sorted) in
  Sorted (keeps comparefn) (take left sorted ++ pivot :: drop left sorted).
Proof.
  intros Hs left.
  destruct (insertion_point_spec pivot sorted (length sorted) 0 (length sorted))
    as (_ & Hl & Hr); [lia..|by left|by left|].
  fold left in Hl, Hr.
  apply Sorted_insert_at; [done| |].
  - destruct Hl as [?|(e & He & Hc)]; [by left|]. right. exists e.
    split; [done|]. unfold keeps. rewrite (antisym pivot e). lia.
  - destruct Hr as [?|(e & He & Hc)]; [by left|]. right. exists e.
    split; [done|]. unfold keeps. lia.
Qed.

Lemma Sorted_BinaryInsertionSort sorted rest :
  Sorted (keeps comparefn) sorted →
  Sorted (keeps comparefn) (BinaryInsertionSort comparefn sorted rest).
Proof.
  revert sorted. induction rest as [|pivot rest IH]; intros sorted Hs; simpl;
    [done|].
  by apply IH, Sorted_insertion_step.
Qed.

Lemma Sorted_first_run elementHigh elementLow rest :
  let isDescending := comparefn elementLow elementHigh <? 0 in
  let run :=
    elementHigh :: elementLow ::
      take (run_length comparefn isDescending elementLow rest) rest in
  Sorted (keeps comparefn) (if isDescending then reverse run else run).
Proof.
  intros isDescending run.
  pose proof (Sorted_run isDescending elementLow rest) as Hrun.
  assert (Hall : Sorted (run_order comparefn isDescending) run).
  { constructor; [done|]. constructor. unfold run_order, isDescending.
    destruct (comparefn elementLow elementHigh <? 0) eqn:Hc;
      [by apply Z.ltb_lt in Hc|by apply Z.ltb_ge in Hc]. }
  clearbody run. destruct isDescending.
  - apply Sorted_reverse in Hall. eapply Sorted_mono; [|exact Hall].
    intros x y. unfold flip, run_order, keeps. lia.
  - eapply Sorted_mono; [|exact Hall].
    intros x y. unfold run_order, keeps. rewrite (antisym y x). lia.
Qed.

(** No element of the result compares greater than its successor. *)
Lemma Sorted_Array_sort l : Sorted (keeps comparefn) (Array_sort comparefn l).
Proof.
  destruct l as [|elementHigh [|elementLow rest]]; [repeat constructor..|].
  apply Sorted_BinaryInsertionSort, Sorted_first_run.
Qed.

(** A sequence in which no element compares greater than its successor is
    left as it is. *)
Lemma Array_sort_Sorted_id l :
  Sorted (keeps comparefn) l → Array_sort comparefn l = l.
Proof.
  destruct l as [|elementHigh [|elementLow rest]]; [done..|].
  intros Hs. unfold Array_sort.
  apply Sorted_inv in Hs as [Hs Hhd]. apply HdRel_inv in Hhd.
  unfold keeps in Hhd.
  assert ((comparefn elementLow elementHigh <? 0) = false) as ->.
  { apply Z.ltb_ge. rewrite (antisym elementHigh elementLow). lia. }
  rewrite run_length_Sorted by done.
  by rewrite firstn_all, drop_all.
Qed.


Lemma StronglySorted_Array_sort l :
  consistent comparefn l →
  StronglySorted (keeps comparefn) (Array_sort comparefn l).
Proof.
  intros Hcons. apply Sorted_StronglySorted_on; [|apply Sorted_Array_sort].
  intros x y z. rewrite !elem_of_Array_sort. apply Hcons.
Qed.

(** Under a consistent comparison, being tied is an equivalence. *)
Lemma tied_trans l x a b :
  consistent comparefn l → x ∈ l → a ∈ l → b ∈ l →
  tied comparefn x a → tied comparefn x b → tied comparefn a b.
Proof.
  unfold tied. intros Hcons Hx Ha Hb Hxa Hxb.
  assert (keeps comparefn a b).
  { apply (Hcons a x b); [done..| |]; unfold keeps; [|lia].
    rewrite (antisym x a). lia. }
  assert (keeps comparefn b a).
  { apply (Hcons b x a); [done..| |]; unfold keeps; [|lia].
    rewrite (antisym x b). lia. }
  unfold keeps in *. rewrite (antisym a b) in *. lia.
Qed.

(** Reversing a strictly descending run moves no element past one it is
    tied with: the run holds no two of them. *)
Lemma filter_tied_reverse_run l x run :
  consistent comparefn l → x ∈ l → run ⊆ l →
  Sorted (λ a b, comparefn b a < 0) run →
  filter (tied comparefn x) (reverse run) = filter (tied comparefn x) run.
Proof.
  intros Hcons Hx Hsub Hrun.
  assert (Hs : StronglySorted (λ a b, comparefn b a < 0) run).
  { apply Sorted_StronglySorted_on; [|done].
    intros a b c Ha Hb Hc Hab Hbc.
    apply Hsub in Ha, Hb, Hc.
    assert (Hca : keeps comparefn c a).
    { apply (Hcons c b a); [done..| |]; unfold keeps; lia. }
    unfold keeps in Hca.
    destruct (decide (comparefn c a = 0)) as [H0|]; [|lia].
    assert (Hab' : keeps comparefn a b).
    { apply (Hcons a c b); [done..| |]; unfold keeps; [|lia].
      rewrite (antisym c a). lia. }
    unfold keeps in Hab'. rewrite (antisym b a) in Hab'. lia. }
  assert (Hshort : (length (filter (tied comparefn x) run) ≤ 1)%nat).
  { clear Hrun. induction Hs as [|a run Hs IH Hall]; [simpl; lia|].
    rewrite filter_cons. destruct (decide (tied comparefn x a)) as [Ha|].
    - assert (filter (tied comparefn x) run = []) as ->; [|simpl; lia].
      destruct (filter (tied comparefn x) run) as [|b t] eqn:Hf; [done|].
      assert (Hb : b ∈ filter (tied comparefn x) run) by (rewrite Hf; left).
      apply list_elem_of_filter in Hb as [Hxb Hb].
      pose proof (proj1 (Forall_forall _ _) Hall b Hb) as Hlt. simpl in Hlt.
      assert (Hab : tied comparefn a b).
      { apply (tied_trans l x); [done|done| | |done|done].
        - apply Hsub. left.
        - apply Hsub. by right. }
      unfold tied in Hab. rewrite (antisym a b) in Hlt. lia.
    - apply IH. intros y Hy. apply Hsub. by right. }
  rewrite filter_reverse.
  destruct (filter (tied comparefn x) run) as [|a [|b t]]; [done..|].
  simpl in Hshort. lia.
Qed.

(** An element is placed behind every element it is tied with. *)
Lemma filter_tied_insertion_step l x pivot sorted :
  consistent comparefn l → x ∈ l → pivot ∈ l → sorted ⊆ l →
  Sorted (keeps comparefn) sorted →
  let left :=
    insertion_point comparefn (length sorted) pivot sorted 0 (length sorted) in
  filter (tied comparefn x) (take left sorted ++ pivot :: drop left sorted)
    = filter (tied comparefn x) (sorted ++ [pivot]).
Proof.
  intros Hcons Hx Hpivot Hsub Hsorted left.
  destruct (insertion_point_spec pivot sorted (length sorted) 0 (length sorted))
    as (Hle & _ & Hr); [lia..|by left|by left|].
  fold left in Hle, Hr.
  rewrite <- (take_drop left sorted) at 3.
  rewrite !filter_app, !filter_cons, filter_nil.
  destruct (decide (tied comparefn x pivot)) as [Hxp|];
    [|by rewrite app_nil_r].
  assert (filter (tied comparefn x) (drop left sorted) = []) as ->;
    [|by rewrite app_nil_r].
  destruct (filter (tied comparefn x) (drop left sorted)) as [|e t] eqn:Hf;
    [done|exfalso].
  assert (He : e ∈ filter (tied comparefn x) (drop left sorted))
    by (rewrite Hf; left).
  apply list_elem_of_filter in He as [Hxe He].
  apply list_elem_of_lookup in He as [i Hi]. rewrite lookup_drop in Hi.
  destruct Hr as [Hlen|(e' & He' & Hlt)].
  { apply lookup_lt_Some in Hi. lia. }
  assert (He'l : e' ∈ l) by (by eapply Hsub, list_elem_of_lookup_2).
  assert (Hel : e ∈ l) by (by eapply Hsub, list_elem_of_lookup_2).
  assert (Hs : StronglySorted (keeps comparefn) sorted).
  { apply Sorted_StronglySorted_on; [|done].
    intros a b c Ha Hb Hc. apply Hcons; by apply Hsub. }
  assert (He'e : keeps comparefn e' e).
  { destruct i as [|i].
    - rewrite Nat.add_0_r in Hi. assert (e = e') as -> by congruence.
      unfold keeps. pose proof (antisym e' e'). lia.
    - apply (StronglySorted_lookup _ sorted left (left + S i)); [done|lia|done..]. }
  assert (Hep : tied comparefn e pivot).
  { by apply (tied_trans l x). }
  assert (keeps comparefn e' pivot).
  { apply (Hcons e' e pivot); [done..|]. unfold keeps, tied in *. lia. }
  unfold keeps in *. rewrite (antisym pivot e') in *. lia.
Qed.

Lemma filter_tied_BinaryInsertionSort l x sorted rest :
  consistent comparefn l → x ∈ l → sorted ++ rest ⊆ l →
  Sorted (keeps comparefn) sorted →
  filter (tied comparefn x) (BinaryInsertionSort comparefn sorted rest)
    = filter (tied comparefn x) (sorted ++ rest).
Proof.
  intros Hcons Hx. revert sorted.
  induction rest as [|pivot rest IH]; intros sorted Hsub Hsorted; simpl.
  { by rewrite app_nil_r. }
  assert (Hp : pivot ∈ l).
  { apply Hsub. rewrite elem_of_app. right. left. }
  assert (Hs : sorted ⊆ l).
  { intros y Hy. apply Hsub. rewrite elem_of_app. by left. }
  rewrite IH.
  - rewrite filter_app, (filter_tied_insertion_step l) by done.
    by rewrite <- filter_app, <- app_assoc.
  - intros y. rewrite elem_of_app, insert_at_perm, elem_of_cons.
    intros [[->|Hy]|Hy]; [done|by apply Hs|].
    apply Hsub. rewrite elem_of_app. right. by right.
  - by apply Sorted_insertion_step.
Qed.

(** For a consistent comparison the sort is stable: it keeps the elements
    tied with any given one in their order. *)
Lemma Array_sort_ties l x :
  consistent comparefn l → x ∈ l →
  filter (tied comparefn x) (Array_sort comparefn l)
    = filter (tied comparefn x) l.
Proof.
  intros Hcons Hx.
  destruct l as [|elementHigh [|elementLow rest]]; [done..|].
  unfold Array_sort.
  set (l := elementHigh :: elementLow :: rest) in *.
  set (isDescending := comparefn elementLow elementHigh <? 0).
  set (n := run_length comparefn isDescending elementLow rest).
  set (run := elementHigh :: elementLow :: take n rest).
  assert (Hl : l = run ++ drop n rest).
  { unfold l, run. simpl. by rewrite take_drop. }
  assert (Hrun : run ⊆ l).
  { intros y Hy. rewrite Hl, elem_of_app. by left. }
  rewrite (filter_tied_BinaryInsertionSort l); [|done..| |].
  - rewrite Hl, !filter_app. f_equal.
    destruct isDescending eqn:Hd; [|done].
    apply (filter_tied_reverse_run l); [done..|].
    pose proof (Sorted_run true elementLow rest) as Hs. simpl in Hs.
    constructor; [exact Hs|]. constructor. by apply Z.ltb_lt.
  - intros y. rewrite Hl, !elem_of_app.
    destruct isDescending; [rewrite elem_of_reverse|]; done.
  - apply Sorted_first_run.
Qed.

(** For a consistent comparison the engine's sort and the stable insertion
    sort give the same result. *)
Lemma Array_sort_insertion_sort l :
  consistent comparefn l →
  Array_sort comparefn l = insertion_sort comparefn l.
Proof.
  intros Hcons.
  apply (stable_sorted_unique comparefn antisym).
  - by rewrite Array_sort_perm, insertion_sort_perm.
  - by apply StronglySorted_Array_sort.
  - by apply StronglySorted_insertion_sort.
  - intros x Hx. rewrite elem_of_Array_sort in Hx.
    rewrite Array_sort_ties by done.
    symmetry. apply insertion_sort_filter.
    intros a b Ha Hb Hxa Hxb.
    pose proof (tied_trans l x a b Hcons Hx Ha Hb Hxa Hxb) as Hab.
    unfold tied, keeps in *. lia.
Qed.

(** A consistent comparison keeps in their order the elements that
    satisfy [P], when none of them compares greater than another. *)
Lemma Array_sort_filter (P : A → Prop) `{!∀ x, Decision (P x)} l :
  consistent comparefn l →
  (∀ x y, x ∈ l → y ∈ l → P x → P y → keeps comparefn x y) →
  filter P (Array_sort comparefn l) = filter P l.
Proof.
  intros Hcons HP. rewrite Array_sort_insertion_sort by done.
  by apply insertion_sort_filter.
Qed.

(** For a consistent comparison function the outcome of a stable sort is
    determined, and it is the one of the engine. *)
Theorem Array_sort_canonical l out :
  consistent comparefn l →
  out ≡ₚ l →
  StronglySorted (keeps comparefn) out →
  (∀ x, x ∈ l → filter (tied comparefn x) out = filter (tied comparefn x) l) →
  out = Array_sort comparefn l.
Proof.
  intros Hcons Hperm Hsorted Hties.
  rewrite Array_sort_insertion_sort by done.
  by apply insertion_sort_canonical.
Qed.
End ArraySortFacts.

(** In a sequence sorted for [R], a pair that [R] orders strictly shows all
    occurrences of its first element before those of its second. *)
Lemma StronglySorted_filter_pair {A} `{!EqDecision A} (R : relation A) l
  (p q : A) :
  StronglySorted R l → p ≠ q → ¬ R q p →
  filter (λ r, r = p ∨ r = q) l = filter (λ r, r = p) l ++ filter (λ r, r = q) l.
Proof.
  intros Hl Hpq Hqp. induction Hl as [|x l Hl IH Hall]; [done|].
  rewrite !filter_cons.
  destruct (decide (x = p)) as [->|Hxp].
  - rewrite decide_True by (by left). rewrite (decide_False (P := p = q)) by done.
    by rewrite IH.
  - destruct (decide (x = q)) as [->|Hxq].
    + rewrite decide_True by (by right).
      assert (Hnil : filter (λ r, r = p) l = []).
      { destruct (filter (λ r, r = p) l) as [|z l'] eqn:Hf; [done|].
        assert (Hz : z ∈ filter (λ r, r = p) l) by (rewrite Hf; left).
        apply list_elem_of_filter in Hz as [-> Hz].
        by eapply Forall_forall in Hall. }
      rewrite IH, Hnil. done.
    + rewrite decide_False by (intros [?|?]; congruence). done.
Qed.

Lemma filter_eq_replicate {A} `{!EqDecision A} (p : A) l :
  filter (λ r, r = p) l = replicate (length (filter (λ r, r = p) l)) p.
Proof.
  induction l as [|x l IH]; [done|].
  rewrite filter_cons. destruct (decide (x = p)) as [->|]; [|done].
  simpl. by rewrite <- IH.
Qed.

Lemma filter_eq_perm {A} `{!EqDecision A} (p : A) l1 l2 :
  l1 ≡ₚ l2 → filter (λ r, r = p) l1 = filter (λ r, r = p) l2.
Proof.
  intros Hp. rewrite (filter_eq_replicate p l1), (filter_eq_replicate p l2).
  by rewrite Hp.
Qed.

(** ** What a sort call computes *)

Lemma compareRefs_antisym h field reverse a b :
  compareRefs h field reverse b a = - compareRefs h field reverse a b.
Proof. unfold compareRefs, DatatableSorter.sortBy. lia. Qed.

Lemma compareRefs_scale h field reverse a b :
  compareRefs h field reverse a b = reverse * compareRefs h field 1 a b.
Proof. unfold compareRefs, DatatableSorter.sortBy. lia. Qed.

Lemma compareRefs_equal_values h field reverse a b :
  getField (deref h a) field = getField (deref h b) field →
  compareRefs h field reverse a b = 0.
Proof. unfold compareRefs, DatatableSorter.sortBy. intros ->. lia. Qed.

Lemma sortData_eq detail this h o source elems :
  owners h !! DatatableSorter.parent this = Some o →
  o !! DatatableSorter.dataFieldName this = Some source →
  arrays h !! source = Some elems →
  let cloneData := fresh (dom (arrays h)) in
  let sorted :=
    Array_sort (compareRefs h (SortEvent.fieldName detail)
                  (DatatableSorter.reverseOf (SortEvent.sortDirection detail)))
      elems in
  DatatableSorter.sortData detail this h =
    Some (DatatableSorter.mk (DatatableSorter.defaultSortDirection this)
            (SortEvent.sortDirection detail) (Some (SortEvent.fieldName detail))
            (DatatableSorter.parent this) (DatatableSorter.dataFieldName this),
          mkHeap (records h) (<[cloneData := sorted]> (arrays h))
            (<[DatatableSorter.parent this :=
                 <[DatatableSorter.dataFieldName this := cloneData]> o]> (owners h))).
Proof.
  intros Ho Hs He. unfold DatatableSorter.sortData, readSlot, spread.
  rewrite Ho. simpl. rewrite Hs. simpl. rewrite He. simpl.
  unfold sort_in_place. simpl. rewrite lookup_insert_eq. simpl.
  unfold writeSlot. simpl. rewrite Ho. simpl.
  by rewrite insert_insert_eq.
Qed.

Lemma published_inv this h input :
  DatatableSorter.published this h = Some input →
  ∃ o source,
    owners h !! DatatableSorter.parent this = Some o ∧
    o !! DatatableSorter.dataFieldName this = Some source ∧
    arrays h !! source = Some input.
Proof.
  unfold DatatableSorter.published, readSlot. intros H.
  destruct (owners h !! DatatableSorter.parent this) as [o|] eqn:Ho; [|done].
  simpl in H.
  destruct (o !! DatatableSorter.dataFieldName this) as [source|] eqn:Hs; [|done].
  eauto.
Qed.

(** A call on a slot that holds a sequence returns, and publishes the
    sorted copy. *)
Lemma sortData_published detail this h input :
  DatatableSorter.published this h = Some input →
  ∃ this' h',
    DatatableSorter.sortData detail this h = Some (this', h') ∧
    DatatableSorter.parent this' = DatatableSorter.parent this ∧
    DatatableSorter.dataFieldName this' = DatatableSorter.dataFieldName this ∧
    records h' = records h ∧
    DatatableSorter.published this' h' =
      Some (Array_sort (compareRefs h (SortEvent.fieldName detail)
              (DatatableSorter.reverseOf (SortEvent.sortDirection detail)))
           input).
Proof.
  intros (o & source & Ho & Hs & He)%published_inv.
  eexists _, _. split; [by eapply sortData_eq|].
  repeat split.
  unfold DatatableSorter.published, readSlot. simpl.
  rewrite lookup_insert_eq. simpl. rewrite lookup_insert_eq. simpl.
  by rewrite lookup_insert_eq.
Qed.

Lemma onHandleSort_published detail this h input :
  DemoApp.published this h = Some input →
  ∃ this' h',
    DemoApp.onHandleSort detail this h = Some (this', h') ∧
    DemoApp.published this' h' =
      Some (Array_sort (compareRefs h (SortEvent.fieldName detail)
              (DemoApp.reverseOf (SortEvent.sortDirection detail))) input).
Proof.
  unfold DemoApp.published. intros He.
  unfold DemoApp.onHandleSort, spread. rewrite He. simpl.
  unfold sort_in_place. simpl. rewrite lookup_insert_eq. simpl.
  eexists _, _. split; [done|].
  unfold DemoApp.published. simpl. by rewrite lookup_insert_eq.
Qed.

(** ** Properties of the sort entry point *)

(** C2. On the records with ages 40, 35, 50 the class publishes the ages
    50, 40, 35 for the direction 'asc' and 35, 40, 50 for 'desc'; on the
    demo data and the event [{fieldName: 'age', sortDirection: 'asc'}] it
    publishes the ids 3, 1, 4, 2: the direction is inverted. *)
Theorem sortData_asc_publishes_descending :
  publishedColumn "age" (sorterOn (ages [40; 35; 50]) "asc")
    = Some [JsNumber 50; JsNumber 40; JsNumber 35] ∧
  publishedColumn "age" (sorterOn (ages [40; 35; 50]) "desc")
    = Some [JsNumber 35; JsNumber 40; JsNumber 50] ∧
  publishedColumn "id" (sorterOn data "asc")
    = Some [JsNumber 3; JsNumber 1; JsNumber 4; JsNumber 2].
Proof. repeat split; vm_compute; reflexivity. Qed.

(** The demo component, on the same data and event, publishes the ids
    2, 4, 1, 3. *)
Lemma onHandleSort_asc_publishes_ascending :
  ('(app, h) ← DemoApp.onHandleSort (SortEvent.mk "age" "asc")
                 (DemoApp.init 0%nat) (heap_of "data" data);
   column "id" h <$> DemoApp.published app h)
    = Some [JsNumber 2; JsNumber 4; JsNumber 1; JsNumber 3].
Proof. vm_compute. reflexivity. Qed.

(** C3, the counterexample.  Every record holds a number at [age], the
    fifth one NaN, which compares as equal to every value while 2 compares
    greater than 1: the comparison is not consistent on this input.  The
    sixth and the seventh record hold the same age, yet for the direction
    'desc' the seventh is published before the sixth. *)
Lemma sortData_reorders_equal_values :
  let h := heap_of "data" unstableRows in
  DatatableSorter.published (DatatableSorter.constructor 0%nat "data") h
    = Some [1; 2; 3; 4; 5; 6; 7]%nat ∧
  getField (deref h 6%nat) "age" = getField (deref h 7%nat) "age" ∧
  ¬ consistent (compareRefs h "age" (DatatableSorter.reverseOf "desc"))
      [1; 2; 3; 4; 5; 6; 7]%nat ∧
  ∃ this' h',
    DatatableSorter.sortData (SortEvent.mk "age" "desc")
      (DatatableSorter.constructor 0%nat "data") h = Some (this', h') ∧
    DatatableSorter.published this' h' = Some [2; 3; 4; 7; 1; 5; 6]%nat ∧
    filter (λ r, r = 6 ∨ r = 7)%nat [2; 3; 4; 7; 1; 5; 6]%nat
      ≠ filter (λ r, r = 6 ∨ r = 7)%nat [1; 2; 3; 4; 5; 6; 7]%nat.
Proof.
  split; [vm_compute; reflexivity|]. split; [vm_compute; reflexivity|].
  split.
  { intros Hcons.
    assert (Hk : keeps (compareRefs (heap_of "data" unstableRows) "age"
                          (DatatableSorter.reverseOf "desc")) 1%nat 2%nat).
    { apply (Hcons 1 5 2)%nat; [by repeat constructor..| |];
        vm_compute; discriminate. }
    vm_compute in Hk. by apply Hk. }
  eexists _, _. split; [vm_compute; reflexivity|].
  split; [vm_compute; reflexivity|].
  vm_compute. discriminate.
Qed.

(** C3.  When the comparison of the call is consistent on the input, two
    records with equal values at the sort field occur in the published
    sequence in the order in which they occur in the input, for every
    direction: reading off the occurrences of the two records gives the
    same sequence before and after. *)
Theorem sortData_stable detail this h input :
  DatatableSorter.published this h = Some input →
  consistent (compareRefs h (SortEvent.fieldName detail)
                (DatatableSorter.reverseOf (SortEvent.sortDirection detail)))
    input →
  ∃ this' h' output,
    DatatableSorter.sortData detail this h = Some (this', h') ∧
    DatatableSorter.published this' h' = Some output ∧
    ∀ p q,
      getField (deref h p) (SortEvent.fieldName detail)
        = getField (deref h q) (SortEvent.fieldName detail) →
      filter (λ r, r = p ∨ r = q) output = filter (λ r, r = p ∨ r = q) input.
Proof.
  intros Hin Hcons.
  destruct (sortData_published detail this h input Hin)
    as (this' & h' & Hrun & _ & _ & _ & Hout).
  eexists _, _, _. split; [done|]. split; [done|].
  intros p q Heq. apply Array_sort_filter.
  - apply compareRefs_antisym.
  - exact Hcons.
  - intros x y _ _ Hx Hy. unfold keeps.
    rewrite compareRefs_equal_values; [done|].
    destruct Hx as [->| ->], Hy as [->| ->]; congruence.
Qed.

Lemma sortData_stable_witness :
  ∃ this' h' output,
    DatatableSorter.sortData (SortEvent.mk "age" "desc")
      (DatatableSorter.constructor 0%nat "data")
      (heap_of "data" (ages [40; 35; 40; 35])) = Some (this', h') ∧
    DatatableSorter.published this' h' = Some output ∧
    ∀ p q,
      getField (deref (heap_of "data" (ages [40; 35; 40; 35])) p) "age"
        = getField (deref (heap_of "data" (ages [40; 35; 40; 35])) q) "age" →
      filter (λ r, r = p ∨ r = q) output
        = filter (λ r, r = p ∨ r = q) [1; 2; 3; 4]%nat.
Proof.
  apply (sortData_stable (SortEvent.mk "age" "desc")
           (DatatableSorter.constructor 0%nat "data")
           (heap_of "data" (ages [40; 35; 40; 35])) [1; 2; 3; 4]%nat).
  - vm_compute. reflexivity.
  - apply consistentb_sound. vm_compute. reflexivity.
Defined.

(** C4. A sort call leaves the sequence object it read as it was (same
    elements, same order), mutates no record and no other array, and
    reassigns only the owner's slot, to an array object that did not exist
    before the call. *)
Theorem sortData_frame detail this h source input :
  readSlot (DatatableSorter.parent this) (DatatableSorter.dataFieldName this) h
    = Some source →
  arrays h !! source = Some input →
  ∃ this' h' cloneData,
    DatatableSorter.sortData detail this h = Some (this', h') ∧
    arrays h' !! source = Some input ∧
    records h' = records h ∧
    (∀ a, a ∈ dom (arrays h) → arrays h' !! a = arrays h !! a) ∧
    (cloneData ∉ dom (arrays h)) ∧
    readSlot (DatatableSorter.parent this) (DatatableSorter.dataFieldName this) h'
      = Some cloneData ∧
    (∀ owner slot,
       (owner, slot)
         ≠ (DatatableSorter.parent this, DatatableSorter.dataFieldName this) →
       readSlot owner slot h' = readSlot owner slot h).
Proof.
  unfold readSlot at 1. intros Hs He.
  destruct (owners h !! DatatableSorter.parent this) as [o|] eqn:Ho; [|done].
  simpl in Hs.
  pose proof (is_fresh (dom (arrays h))) as Hfresh.
  eexists _, _, (fresh (dom (arrays h))).
  split; [by eapply sortData_eq|]. simpl.
  assert (Hframe : ∀ a, a ∈ dom (arrays h) →
            <[fresh (dom (arrays h)) :=
                Array_sort (compareRefs h (SortEvent.fieldName detail)
                  (DatatableSorter.reverseOf (SortEvent.sortDirection detail))) input]>
              (arrays h) !! a = arrays h !! a).
  { intros a Ha. apply lookup_insert_ne. intros <-. done. }
  split; [|split; [done|split; [done|split; [done|split]]]].
  - rewrite Hframe; [done|]. apply elem_of_dom. eauto.
  - unfold readSlot. simpl. rewrite lookup_insert_eq. simpl.
    by rewrite lookup_insert_eq.
  - intros owner slot Hne. unfold readSlot. simpl.
    destruct (decide (owner = DatatableSorter.parent this)) as [->|Hno].
    + rewrite lookup_insert_eq, Ho. simpl.
      apply lookup_insert_ne. congruence.
    + by rewrite lookup_insert_ne.
Qed.

Lemma sortData_frame_witness :
  ∃ this' h' cloneData,
    DatatableSorter.sortData (SortEvent.mk "age" "asc")
      (DatatableSorter.constructor 0%nat "data") (heap_of "data" data)
      = Some (this', h') ∧
    arrays h' !! 0%nat = Some [1; 2; 3; 4]%nat ∧
    records h' = records (heap_of "data" data) ∧
    (∀ a, a ∈ dom (arrays (heap_of "data" data)) →
       arrays h' !! a = arrays (heap_of "data" data) !! a) ∧
    (cloneData ∉ dom (arrays (heap_of "data" data))) ∧
    readSlot 0%nat "data" h' = Some cloneData ∧
    (∀ owner slot, (owner, slot) ≠ (0%nat, "data") →
       readSlot owner slot h' = readSlot owner slot (heap_of "data" data)).
Proof.
  apply (sortData_frame (SortEvent.mk "age" "asc")
           (DatatableSorter.constructor 0%nat "data") (heap_of "data" data)
           0%nat [1; 2; 3; 4]%nat); vm_compute; reflexivity.
Defined.

(** C5. A new sorter exposes the direction 'asc' and no sort field; after
    a call with the descriptor [{fieldName, sortDirection}] it exposes that
    field and that direction. *)
Theorem sortData_state detail this h input :
  DatatableSorter.published this h = Some input →
  (∀ parent slot,
     DatatableSorter.sortDirection (DatatableSorter.constructor parent slot) = "asc" ∧
     DatatableSorter.defaultSortDirection (DatatableSorter.constructor parent slot)
       = "asc" ∧
     DatatableSorter.sortedBy (DatatableSorter.constructor parent slot) = None) ∧
  ∃ this' h',
    DatatableSorter.sortData detail this h = Some (this', h') ∧
    DatatableSorter.sortedBy this' = Some (SortEvent.fieldName detail) ∧
    DatatableSorter.sortDirection this' = SortEvent.sortDirection detail.
Proof.
  intros (o & source & Ho & Hs & He)%published_inv.
  split; [done|].
  eexists _, _. split; [by eapply sortData_eq|]. done.
Qed.

Lemma sortData_state_witness :
  (∀ parent slot,
     DatatableSorter.sortDirection (DatatableSorter.constructor parent slot) = "asc" ∧
     DatatableSorter.defaultSortDirection (DatatableSorter.constructor parent slot)
       = "asc" ∧
     DatatableSorter.sortedBy (DatatableSorter.constructor parent slot) = None) ∧
  ∃ this' h',
    DatatableSorter.sortData (SortEvent.mk "age" "asc")
      (DatatableSorter.constructor 0%nat "data") (heap_of "data" data)
      = Some (this', h') ∧
    DatatableSorter.sortedBy this' = Some "age" ∧
    DatatableSorter.sortDirection this' = "asc".
Proof.
  apply (sortData_state (SortEvent.mk "age" "asc")
           (DatatableSorter.constructor 0%nat "data") (heap_of "data" data)
           [1; 2; 3; 4]%nat).
  vm_compute. reflexivity.
Defined.



(** C10. Whatever the field name (present on the records or not) and the
    direction value, the published sequence is a permutation of the input:
    the same record references with the same multiplicities, and the same
    length. *)
Theorem sortData_permutation detail this h input :
  DatatableSorter.published this h = Some input →
  ∃ this' h' output,
    DatatableSorter.sortData detail this h = Some (this', h') ∧
    DatatableSorter.published this' h' = Some output ∧
    output ≡ₚ input ∧
    length output = length input.
Proof.
  intros Hin.
  destruct (sortData_published detail this h input Hin)
    as (this' & h' & Hrun & _ & _ & _ & Hout).
  eexists _, _, _. repeat (split; [done|]).
  pose proof (Array_sort_perm (compareRefs h (SortEvent.fieldName detail)
    (DatatableSorter.reverseOf (SortEvent.sortDirection detail))) input) as Hp.
  split; [done|]. by rewrite Hp.
Qed.

Lemma sortData_permutation_witness :
  ∃ this' h' output,
    DatatableSorter.sortData (SortEvent.mk "phone" "up")
      (DatatableSorter.constructor 0%nat "data") (heap_of "data" data)
      = Some (this', h') ∧
    DatatableSorter.published this' h' = Some output ∧
    output ≡ₚ [1; 2; 3; 4]%nat ∧
    length output = length [1; 2; 3; 4]%nat.
Proof.
  apply (sortData_permutation (SortEvent.mk "phone" "up")
           (DatatableSorter.constructor 0%nat "data") (heap_of "data" data)
           [1; 2; 3; 4]%nat).
  vm_compute. reflexivity.
Defined.

(** ** The demo component against the class *)

Lemma consistent_scale {A} (c : A → A → Z) (k : Z) l :
  (∀ x y, c y x = - c x y) → k = 1 ∨ k = -1 →
  consistent c l → consistent (λ a b, k * c a b) l.
Proof.
  intros Hanti Hk Hcons x y z Hx Hy Hz. unfold keeps.
  destruct Hk as [->| ->].
  - intros Hxy Hyz. specialize (Hcons x y z Hx Hy Hz). unfold keeps in Hcons. lia.
  - intros Hxy Hyz. specialize (Hcons z y x Hz Hy Hx). unfold keeps in Hcons.
    rewrite (Hanti y x), (Hanti z y), (Hanti z x) in *. lia.
Qed.

Lemma StronglySorted_compareRefs h field k l :
  k = 1 ∨ k = -1 →
  consistent (compareRefs h field 1) l →
  StronglySorted (keeps (compareRefs h field k)) (Array_sort (compareRefs h field k) l).
Proof.
  intros Hk Hcons. apply StronglySorted_Array_sort.
  - intros x y. apply compareRefs_antisym.
  - intros x y z Hx Hy Hz. unfold keeps.
    rewrite (compareRefs_scale h field k x y), (compareRefs_scale h field k y z),
      (compareRefs_scale h field k x z).
    apply (consistent_scale (compareRefs h field 1) k l); [|done..].
    intros a b. apply compareRefs_antisym.
Qed.

(** Two sorted arrangements of one sequence, for a comparison function and
    its opposite, show every strictly ordered pair in opposite orders. *)
Lemma opposite_sorts_reverse_pair h field k l (p q : Ref) :
  k = 1 ∨ k = -1 →
  consistent (compareRefs h field 1) l →
  compareRefs h field k p q < 0 →
  filter (λ r, r = p ∨ r = q) (Array_sort (compareRefs h field k) l)
    = reverse (filter (λ r, r = p ∨ r = q) (Array_sort (compareRefs h field (- k)) l)).
Proof.
  intros Hk Hcons Hlt.
  assert (Hk' : - k = 1 ∨ - k = -1) by lia.
  assert (Hpq : p ≠ q).
  { intros ->. rewrite compareRefs_equal_values in Hlt; [lia|done]. }
  pose proof (StronglySorted_compareRefs h field k l Hk Hcons) as Hs1.
  pose proof (StronglySorted_compareRefs h field (- k) l Hk' Hcons) as Hs2.
  rewrite (StronglySorted_filter_pair _ _ p q Hs1 Hpq).
  2:{ unfold keeps. rewrite compareRefs_antisym. lia. }
  rewrite (list_filter_iff (λ r, r = p ∨ r = q) (λ r, r = q ∨ r = p)) by tauto.
  rewrite (StronglySorted_filter_pair _ _ q p Hs2) by
    (try done; unfold keeps;
     rewrite (compareRefs_scale h field (- k)); rewrite (compareRefs_scale h field k) in Hlt;
     lia).
  rewrite reverse_app.
  rewrite (filter_eq_replicate p (Array_sort (compareRefs h field (- k)) l)),
    (filter_eq_replicate q (Array_sort (compareRefs h field (- k)) l)).
  rewrite !reverse_replicate.
  rewrite <- !filter_eq_replicate.
  f_equal; apply filter_eq_perm; by rewrite !Array_sort_perm.
Qed.

(** C7, as stated, fails.  On three records that hold 3, NaN and 1 at
    [age] the comparison is not consistent, as NaN compares as equal to
    both 3 and 1: for the event [{fieldName: 'age', sortDirection: 'asc'}]
    the demo component and the class both publish the records in their
    input order, the first and the third too, of which one holds the
    greater value.  And on two records that hold 1 and NaN, where the
    comparison is consistent, the two components publish the pair in the
    same order, although the values differ: neither is the greater. *)
Lemma demo_and_class_agree_on_NaN :
  let detail := SortEvent.mk "age" "asc" in
  (let h := heap_of "data" (agesOf [JsNumber 3; JsNaN; JsNumber 1]) in
   ∃ app' hd sorter' hc,
     DemoApp.onHandleSort detail (DemoApp.init 0%nat) h = Some (app', hd) ∧
     DatatableSorter.sortData detail (DatatableSorter.constructor 0%nat "data") h
       = Some (sorter', hc) ∧
     DemoApp.published app' hd = Some [1; 2; 3]%nat ∧
     DatatableSorter.published sorter' hc = Some [1; 2; 3]%nat ∧
     js_gt (getField (deref h 1%nat) "age") (getField (deref h 3%nat) "age")
       = true ∧
     ¬ consistent (compareRefs h "age" 1) [1; 2; 3]%nat ∧
     filter (λ r, r = 1%nat ∨ r = 3%nat) [1; 2; 3]%nat
       ≠ reverse (filter (λ r, r = 1%nat ∨ r = 3%nat) [1; 2; 3]%nat)) ∧
  (let h := heap_of "data" (agesOf [JsNumber 1; JsNaN]) in
   ∃ app' hd sorter' hc,
     DemoApp.onHandleSort detail (DemoApp.init 0%nat) h = Some (app', hd) ∧
     DatatableSorter.sortData detail (DatatableSorter.constructor 0%nat "data") h
       = Some (sorter', hc) ∧
     DemoApp.published app' hd = Some [1; 2]%nat ∧
     DatatableSorter.published sorter' hc = Some [1; 2]%nat ∧
     getField (deref h 1%nat) "age" ≠ getField (deref h 2%nat) "age" ∧
     consistent (compareRefs h "age" 1) [1; 2]%nat ∧
     filter (λ r, r = 1%nat ∨ r = 2%nat) [1; 2]%nat
       ≠ reverse (filter (λ r, r = 1%nat ∨ r = 2%nat) [1; 2]%nat)).
Proof.
  split.
  - eexists _, _, _, _.
    split; [vm_compute; reflexivity|].
    split; [vm_compute; reflexivity|].
    split; [vm_compute; reflexivity|].
    split; [vm_compute; reflexivity|].
    split; [vm_compute; reflexivity|].
    split; [|vm_compute; discriminate].
    intros Hcons.
    assert (Hk : keeps (compareRefs (heap_of "data"
                   (agesOf [JsNumber 3; JsNaN; JsNumber 1])) "age" 1) 1%nat 3%nat).
    { apply (Hcons 1 2 3)%nat; [by repeat constructor..| |];
        vm_compute; discriminate. }
    vm_compute in Hk. by apply Hk.
  - eexists _, _, _, _.
    split; [vm_compute; reflexivity|].
    split; [vm_compute; reflexivity|].
    split; [vm_compute; reflexivity|].
    split; [vm_compute; reflexivity|].
    split; [vm_compute; discriminate|].
    split; [apply consistentb_sound; vm_compute; reflexivity|].
    vm_compute. discriminate.
Qed.

(** C7, amended. The demo component hands [sortBy] the factor opposite to
    the one the class hands it ('asc' gives 1 in the demo and -1 in the
    class).  On the same data and the same event, when the comparison is
    consistent on the data, the two publish in opposite orders every pair
    of records of which one holds the greater value at the sort field. *)
Theorem demo_and_class_publish_opposite_orders detail app sorter h input :
  DemoApp.published app h = Some input →
  DatatableSorter.published sorter h = Some input →
  consistent (compareRefs h (SortEvent.fieldName detail) 1) input →
  DemoApp.reverseOf "asc" = 1 ∧
  DatatableSorter.reverseOf "asc" = -1 ∧
  DemoApp.reverseOf (SortEvent.sortDirection detail)
    = - DatatableSorter.reverseOf (SortEvent.sortDirection detail) ∧
  ∃ app' hd sorter' hc outd outc,
    DemoApp.onHandleSort detail app h = Some (app', hd) ∧
    DatatableSorter.sortData detail sorter h = Some (sorter', hc) ∧
    DemoApp.published app' hd = Some outd ∧
    DatatableSorter.published sorter' hc = Some outc ∧
    ∀ p q,
      js_gt (getField (deref h p) (SortEvent.fieldName detail))
            (getField (deref h q) (SortEvent.fieldName detail))
        ≠ js_gt (getField (deref h q) (SortEvent.fieldName detail))
                (getField (deref h p) (SortEvent.fieldName detail)) →
      filter (λ r, r = p ∨ r = q) outd = reverse (filter (λ r, r = p ∨ r = q) outc).
Proof.
  intros Hd Hc Hcons.
  assert (Hopp : DemoApp.reverseOf (SortEvent.sortDirection detail)
            = - DatatableSorter.reverseOf (SortEvent.sortDirection detail)).
  { unfold DemoApp.reverseOf, DatatableSorter.reverseOf.
    by destruct (String.eqb _ _). }
  split; [done|]. split; [done|]. split; [done|].
  destruct (onHandleSort_published detail app h input Hd) as (app' & hd & Hrund & Houtd).
  destruct (sortData_published detail sorter h input Hc)
    as (sorter' & hc & Hrunc & _ & _ & _ & Houtc).
  eexists _, _, _, _, _, _. repeat (split; [done|]).
  intros p q Hne.
  set (f := SortEvent.fieldName detail) in *.
  set (kc := DatatableSorter.reverseOf (SortEvent.sortDirection detail)) in *.
  rewrite Hopp.
  assert (Hkc : kc = 1 ∨ kc = -1).
  { unfold kc, DatatableSorter.reverseOf. destruct (String.eqb _ _); lia. }
  assert (Hsign : compareRefs h f (- kc) p q < 0 ∨ compareRefs h f kc p q < 0).
  { rewrite (compareRefs_scale h f (- kc)), (compareRefs_scale h f kc).
    assert (compareRefs h f 1 p q ≠ 0); [|lia].
    unfold compareRefs, DatatableSorter.sortBy.
    destruct (js_gt _ _), (js_gt _ _); simpl; try lia; done. }
  destruct Hsign as [Hlt|Hlt].
  - rewrite (opposite_sorts_reverse_pair h f (- kc) input p q); [|lia|done|done].
    by rewrite Z.opp_involutive.
  - rewrite (opposite_sorts_reverse_pair h f kc input p q Hkc Hcons Hlt).
    by rewrite reverse_involutive.
Qed.

Lemma demo_and_class_publish_opposite_orders_witness :
  DemoApp.reverseOf "asc" = 1 ∧
  DatatableSorter.reverseOf "asc" = -1 ∧
  DemoApp.reverseOf "asc" = - DatatableSorter.reverseOf "asc" ∧
  ∃ app' hd sorter' hc outd outc,
    DemoApp.onHandleSort (SortEvent.mk "age" "asc") (DemoApp.init 0%nat)
      (heap_of "data" data) = Some (app', hd) ∧
    DatatableSorter.sortData (SortEvent.mk "age" "asc")
      (DatatableSorter.constructor 0%nat "data") (heap_of "data" data)
      = Some (sorter', hc) ∧
    DemoApp.published app' hd = Some outd ∧
    DatatableSorter.published sorter' hc = Some outc ∧
    ∀ p q,
      js_gt (getField (deref (heap_of "data" data) p) "age")
            (getField (deref (heap_of "data" data) q) "age")
        ≠ js_gt (getField (deref (heap_of "data" data) q) "age")
                (getField (deref (heap_of "data" data) p) "age") →
      filter (λ r, r = p ∨ r = q) outd = reverse (filter (λ r, r = p ∨ r = q) outc).
Proof.
  apply (demo_and_class_publish_opposite_orders (SortEvent.mk "age" "asc")
           (DemoApp.init 0%nat) (DatatableSorter.constructor 0%nat "data")
           (heap_of "data" data) [1; 2; 3; 4]%nat).
  - vm_compute. reflexivity.
  - vm_compute. reflexivity.
  - apply consistentb_sound. vm_compute. reflexivity.
Defined.

(** The comparison is consistent on a column of numbers other than NaN. *)
Lemma consistent_on_numbers h field l :
  (∀ r, r ∈ l → ∃ n, getField (deref h r) field = JsNumber n) →
  consistent (compareRefs h field 1) l.
Proof.
  intros Hnum x y z Hx Hy Hz.
  destruct (Hnum x Hx) as [a Ha], (Hnum y Hy) as [b Hb], (Hnum z Hz) as [c Hc].
  unfold keeps, compareRefs, DatatableSorter.sortBy. rewrite Ha, Hb, Hc. simpl.
  destruct (Z.ltb_spec b a), (Z.ltb_spec a b), (Z.ltb_spec c b), (Z.ltb_spec b c),
    (Z.ltb_spec c a), (Z.ltb_spec a c); simpl; lia.
Qed.

(** ** Facts about [protectThis] *)

Section ProtectThisFacts.
Import ProtectThis.
Implicit Types (h : ObjectHeap) (object r : Ref) (name : string) (v : Value).

Lemma size_setProperty h object name v :
  size (setProperty h object name v) = size h.
Proof.
  unfold setProperty. destruct (h !! object) as [o|] eqn:Ho; [|done].
  apply map_size_insert_Some. eauto.
Qed.

Lemma lookup_setProperty_ne h object name v r :
  r ≠ object → setProperty h object name v !! r = h !! r.
Proof.
  intros Hne. unfold setProperty. destruct (h !! object); [|done].
  by rewrite lookup_insert_ne.
Qed.

Lemma lookup_setProperty_eq h object name v o :
  h !! object = Some o →
  setProperty h object name v !! object
    = Some (mkObject (prototype o) (<[name := v]> (properties o))).
Proof. intros Ho. unfold setProperty. rewrite Ho. apply lookup_insert_eq. Qed.

(** A write of one name is not seen by a read of another name. *)
Lemma lookup_chain_setProperty_ne fuel h object name v r name' :
  name' ≠ name →
  lookup_chain fuel (setProperty h object name v) r name'
    = lookup_chain fuel h r name'.
Proof.
  intros Hne. revert r. induction fuel as [|fuel IH]; intros r; simpl; [done|].
  destruct (decide (r = object)) as [->|Hr].
  - destruct (h !! object) as [o|] eqn:Ho.
    + rewrite (lookup_setProperty_eq _ _ _ _ o Ho). simpl.
      rewrite lookup_insert_ne by done.
      destruct (properties o !! name'); [done|].
      destruct (prototype o); [apply IH|done].
    + assert (setProperty h object name v = h) as ->; [|by rewrite Ho].
      unfold setProperty. by rewrite Ho.
  - rewrite lookup_setProperty_ne by done.
    destruct (h !! r) as [o|]; [|done].
    destruct (properties o !! name'); [done|].
    destruct (prototype o); [apply IH|done].
Qed.

Lemma getProperty_setProperty_ne h object name v r name' :
  name' ≠ name →
  getProperty (setProperty h object name v) r name' = getProperty h r name'.
Proof.
  intros Hne. unfold getProperty. rewrite size_setProperty.
  by apply lookup_chain_setProperty_ne.
Qed.

Lemma getProperty_setProperty_eq h object name v :
  is_Some (h !! object) →
  getProperty (setProperty h object name v) object name = v.
Proof.
  intros [o Ho]. unfold getProperty. rewrite size_setProperty.
  destruct (size h) as [|n] eqn:Hsize.
  { apply map_size_empty_inv in Hsize. subst h. by rewrite lookup_empty in Ho. }
  simpl. rewrite (lookup_setProperty_eq _ _ _ _ o Ho). simpl.
  by rewrite lookup_insert_eq.
Qed.

(** The lookup along a chain without a cycle needs no more fuel than the
    heap has objects. *)
Lemma lookup_chain_stable fuel h r name :
  (length (chain (S fuel) h r) ≤ fuel)%nat →
  ∀ fuel', (fuel ≤ fuel')%nat →
  lookup_chain fuel' h r name = lookup_chain fuel h r name.
Proof.
  revert r. induction fuel as [|fuel IH]; intros r Hlen fuel' Hle.
  - simpl in Hlen. destruct fuel' as [|fuel']; simpl; [done|].
    destruct (h !! r); [simpl in Hlen; lia|done].
  - destruct fuel' as [|fuel']; [lia|].
    cbn [chain] in Hlen. simpl.
    destruct (h !! r) as [o|]; [|done].
    destruct (properties o !! name); [done|].
    destruct (prototype o) as [proto|]; [|done].
    apply IH; [|lia]. simpl in Hlen. cbn [chain]. lia.
Qed.

Lemma elem_of_chain fuel h r x : x ∈ chain fuel h r → is_Some (h !! x).
Proof.
  revert r. induction fuel as [|fuel IH]; intros r; simpl.
  { by intros ?%elem_of_nil. }
  destruct (h !! r) as [o|] eqn:Ho; [|by intros ?%elem_of_nil].
  intros [->|Hx]%elem_of_cons; [eauto|].
  destruct (prototype o); [by eapply IH|by apply elem_of_nil in Hx].
Qed.

Lemma getProperty_fuel h r name fuel :
  NoDup (chain (S (size h)) h r) → (size h ≤ fuel)%nat →
  lookup_chain fuel h r name = getProperty h r name.
Proof.
  intros Hnd Hle. unfold getProperty. apply lookup_chain_stable; [|done].
  rewrite <- (size_list_to_set (C := gset Ref) _ Hnd).
  etrans; [|by rewrite <- (size_dom (D := gset Ref) h)].
  apply subseteq_size. intros x Hx.
  apply elem_of_list_to_set, elem_of_chain in Hx. by apply elem_of_dom.
Qed.

(** What the rounds of the [forEach] leave at every object. *)
Lemma foldl_protectOne_lookup object names h r o :
  h !! r = Some o →
  ∃ o', foldl (protectOne object) h names !! r = Some o' ∧
        prototype o' = prototype o ∧
        dom (properties o) ⊆ dom (properties o') ∧
        (r ≠ object → o' = o).
Proof.
  revert h o. induction names as [|n names IH]; intros h o Ho; simpl.
  { exists o. repeat split; done. }
  destruct (decide (r = object)) as [->|Hr].
  - unfold protectOne at 2.
    pose proof (lookup_setProperty_eq h object n
      (VProtected (getProperty h object n) object) o Ho) as Hset.
    destruct (IH _ _ Hset) as (o' & Ho' & Hproto & Hdom & _).
    exists o'. split; [done|]. split; [done|]. split; [|done].
    etrans; [|exact Hdom]. simpl. apply dom_insert_subseteq.
  - assert (Hset : protectOne object h n !! r = Some o).
    { unfold protectOne. by rewrite lookup_setProperty_ne. }
    destruct (IH _ _ Hset) as (o' & Ho' & Hproto & Hdom & Heq).
    exists o'. repeat split; auto.
Qed.

Lemma foldl_protectOne_frame object names h r :
  r ≠ object → foldl (protectOne object) h names !! r = h !! r.
Proof.
  intros Hr. revert h. induction names as [|n names IH]; intros h; simpl; [done|].
  rewrite IH. unfold protectOne. by apply lookup_setProperty_ne.
Qed.

Lemma size_foldl_protectOne object names h :
  size (foldl (protectOne object) h names) = size h.
Proof.
  revert h. induction names as [|n names IH]; intros h; simpl; [done|].
  rewrite IH. apply size_setProperty.
Qed.

(** Every listed name ends up holding the closure over what it held, and
    every other name reads as before. *)
Lemma foldl_protectOne_getProperty object names :
  NoDup names → ∀ h, is_Some (h !! object) → ∀ name,
  getProperty (foldl (protectOne object) h names) object name
    = if decide (name ∈ names)
      then VProtected (getProperty h object name) object
      else getProperty h object name.
Proof.
  induction 1 as [|n names Hn Hnd IH]; intros h Hobj name; cbn [foldl].
  { rewrite decide_False; [done|]. apply not_elem_of_nil. }
  assert (Hobj' : is_Some (protectOne object h n !! object)).
  { destruct Hobj as [o Ho]. unfold protectOne.
    rewrite (lookup_setProperty_eq _ _ _ _ o Ho). eauto. }
  rewrite (IH _ Hobj' name).
  destruct (decide (name = n)) as [->|Hne].
  - rewrite (decide_False (P := n ∈ names)) by done.
    rewrite decide_True by left.
    unfold protectOne. by apply getProperty_setProperty_eq.
  - assert (Hget : getProperty (protectOne object h n) object name
                     = getProperty h object name).
    { unfold protectOne. by apply getProperty_setProperty_ne. }
    rewrite Hget.
    destruct (decide (name ∈ names)) as [Hin|Hin].
    + rewrite decide_True by (by right). done.
    + rewrite decide_False; [done|]. rewrite elem_of_cons. tauto.
Qed.

Lemma functionNames_spec object h o proto p :
  h !! object = Some o → prototype o = Some proto → h !! proto = Some p →
  ∃ names,
    functionNames object h = Some names ∧ NoDup names ∧
    ∀ name, name ∈ names ↔
      is_Some (properties p !! name) ∧
      typeof (getProperty h object name) = "function".
Proof.
  intros Ho Hproto Hp. unfold functionNames. rewrite Ho. simpl.
  rewrite Hproto. simpl. rewrite Hp. simpl.
  eexists. split; [done|]. split.
  - apply NoDup_filter, NoDup_fst_map_to_list.
  - intros name. rewrite list_elem_of_filter. unfold getOwnPropertyNames.
    rewrite list_elem_of_fmap. split.
    + intros [Hf ([k v] & -> & Hin)]. simpl in *.
      apply elem_of_map_to_list in Hin. eauto.
    + intros [[v Hv] Hf]. split; [done|].
      exists (name, v). split; [done|]. by apply elem_of_map_to_list.
Qed.

(** A chain that stays clear of [object] reads the same after writes to
    [object]. *)
Lemma lookup_chain_avoids fuel h h' object r name :
  (∀ x, x ≠ object → h' !! x = h !! x) →
  avoids fuel h r object = true →
  lookup_chain fuel h' r name = lookup_chain fuel h r name.
Proof.
  intros Hframe. revert r. induction fuel as [|fuel IH]; intros r; simpl; [done|].
  destruct (decide (r = object)) as [|Hr]; [done|].
  rewrite (Hframe r Hr).
  destruct (h !! r) as [o|]; [|done].
  destruct (properties o !! name); [done|].
  destruct (prototype o); [apply IH|done].
Qed.

Lemma call_protected native init object this arguments hh :
  call native (VProtected init object) this arguments hh
    = call native init (VObject object) arguments hh.
Proof. done. Qed.

End ProtectThisFacts.

(** ** Properties of [protectThis] *)

Section ProtectThisProperties.
Import ProtectThis.
Implicit Types (h : ObjectHeap) (object r : Ref) (name : string) (v : Value).

(** What [protectThis] leaves on an instance whose prototype is [p]. *)
Lemma protectThis_spec object h o proto p :
  h !! object = Some o → prototype o = Some proto → h !! proto = Some p →
  ∃ h',
    protectThis object h = Some h' ∧
    size h' = size h ∧
    (∀ r, r ≠ object → h' !! r = h !! r) ∧
    (∃ o', h' !! object = Some o' ∧ prototype o' = Some proto) ∧
    (∃ p', h' !! proto = Some p' ∧ dom (properties p) ⊆ dom (properties p')) ∧
    (∀ name,
       is_Some (properties p !! name) →
       typeof (getProperty h object name) = "function" →
       getProperty h' object name = VProtected (getProperty h object name) object) ∧
    ((∀ name, is_Some (properties p !! name) →
        typeof (getProperty h object name) ≠ "function") → h' = h).
Proof.
  intros Ho Hproto Hp.
  destruct (functionNames_spec object h o proto p Ho Hproto Hp)
    as (names & Hnames & Hnd & Hin).
  unfold protectThis. rewrite Hnames. simpl.
  eexists. split; [done|].
  split; [apply size_foldl_protectOne|].
  split; [intros r Hr; by apply foldl_protectOne_frame|].
  split.
  { destruct (foldl_protectOne_lookup object names h object o Ho)
      as (o' & Ho' & Hp' & _). exists o'. by rewrite Hp'. }
  split.
  { destruct (foldl_protectOne_lookup object names h proto p Hp)
      as (p' & Hp' & _ & Hdom & _). eauto. }
  split.
  - intros name Hown Hfun.
    rewrite (foldl_protectOne_getProperty object names Hnd h) by eauto.
    rewrite decide_True; [done|]. by apply Hin.
  - intros Hnone. destruct names as [|n names]; [done|].
    destruct (proj1 (Hin n)) as [Hown Hfun]; [left|].
    by destruct (Hnone n Hown).
Qed.

(** C1, as stated, fails: [who] is a method of the instance 3, inherited
    from the class its class extends; after [protectThis] the extracted
    [who], called without a context, returns [undefined], while
    [instance.who()] returns the instance. *)
Lemma protectThis_leaves_inherited_method :
  ∃ h',
    protectThis 3%nat exampleHeap = Some h' ∧
    typeof (getProperty h' 3%nat "who") = "function" ∧
    call exampleNative (getProperty h' 3%nat "who") VUndefined [] h'
      ≠ call exampleNative (getProperty h' 3%nat "who") (VObject 3%nat) [] h'.
Proof.
  eexists. split; [vm_compute; reflexivity|].
  split; [vm_compute; reflexivity|].
  vm_compute. intros Heq. inversion Heq.
Qed.

(** C1, amended. For every own property name of the instance's prototype
    whose value, read on the instance, is a function, the method extracted
    after [protectThis] and invoked with no context, or any, and arbitrary
    arguments does what [instance.method(arguments)] does, which is what
    the function it replaced does on the instance. *)
Theorem protectThis_detached native object h o proto p name :
  h !! object = Some o → prototype o = Some proto → h !! proto = Some p →
  is_Some (properties p !! name) →
  typeof (getProperty h object name) = "function" →
  ∃ h',
    protectThis object h = Some h' ∧
    ∀ this arguments hh,
      call native (getProperty h' object name) this arguments hh
        = call native (getProperty h' object name) (VObject object) arguments hh ∧
      call native (getProperty h' object name) (VObject object) arguments hh
        = call native (getProperty h object name) (VObject object) arguments hh.
Proof.
  intros Ho Hproto Hp Hown Hfun.
  destruct (protectThis_spec object h o proto p Ho Hproto Hp)
    as (h' & Hrun & _ & _ & _ & _ & Hget & _).
  exists h'. split; [done|]. intros this arguments hh.
  rewrite (Hget name Hown Hfun). by rewrite !call_protected.
Qed.

Lemma protectThis_detached_witness :
  ∃ h',
    protectThis 3%nat exampleHeap = Some h' ∧
    ∀ this arguments hh,
      call exampleNative (getProperty h' 3%nat "getName") this arguments hh
        = call exampleNative (getProperty h' 3%nat "getName") (VObject 3%nat)
            arguments hh ∧
      call exampleNative (getProperty h' 3%nat "getName") (VObject 3%nat)
          arguments hh
        = call exampleNative (getProperty exampleHeap 3%nat "getName")
            (VObject 3%nat) arguments hh.
Proof.
  apply (protectThis_detached exampleNative 3%nat exampleHeap
           (mkObject (Some 2%nat) {[ "name" := VString "first" ]}) 2%nat
           (mkObject (Some 1%nat)
              {[ "constructor" := VNative 0; "getName" := VNative 2 ]})
           "getName").
  - vm_compute. reflexivity.
  - reflexivity.
  - vm_compute. reflexivity.
  - exists (VNative 2). vm_compute. reflexivity.
  - vm_compute. reflexivity.
Defined.

(** C8. [protectThis] writes to the instance only: every other object,
    the prototype among them, is as before, and so is every property read
    on an object whose prototype chain does not pass through the instance,
    such as another instance of the class. *)
Theorem protectThis_frame object h o proto p :
  h !! object = Some o → prototype o = Some proto → h !! proto = Some p →
  ∃ h',
    protectThis object h = Some h' ∧
    (∀ r, r ≠ object → h' !! r = h !! r) ∧
    (proto ≠ object → h' !! proto = Some p) ∧
    (∀ other name,
       avoids (size h) h other object = true →
       getProperty h' other name = getProperty h other name).
Proof.
  intros Ho Hproto Hp.
  destruct (protectThis_spec object h o proto p Ho Hproto Hp)
    as (h' & Hrun & Hsize & Hframe & _).
  exists h'. split; [done|]. split; [done|]. split.
  - intros Hne. by rewrite Hframe.
  - intros other name Hav. unfold getProperty. rewrite Hsize.
    by apply (lookup_chain_avoids _ h h' object).
Qed.

Lemma protectThis_frame_witness :
  ∃ h',
    protectThis 3%nat exampleHeap = Some h' ∧
    (∀ r, r ≠ 3%nat → h' !! r = exampleHeap !! r) ∧
    (2%nat ≠ 3%nat →
     h' !! 2%nat
       = Some (mkObject (Some 1%nat)
                 {[ "constructor" := VNative 0; "getName" := VNative 2 ]})) ∧
    (∀ other name,
       avoids (size exampleHeap) exampleHeap other 3%nat = true →
       getProperty h' other name = getProperty exampleHeap other name).
Proof.
  apply (protectThis_frame 3%nat exampleHeap
           (mkObject (Some 2%nat) {[ "name" := VString "first" ]}) 2%nat).
  - vm_compute. reflexivity.
  - reflexivity.
  - vm_compute. reflexivity.
Defined.

(** C9, as stated, fails: [who] is a method of the instance 3, inherited
    from the class its class extends; after two applications of
    [protectThis] the extracted [who], called without a context, does not
    do what the method of the prototype does on the instance. *)
Lemma protectThis_twice_leaves_inherited_method :
  ∃ h1 h2,
    protectThis 3%nat exampleHeap = Some h1 ∧
    protectThis 3%nat h1 = Some h2 ∧
    typeof (getProperty h2 3%nat "who") = "function" ∧
    call exampleNative (getProperty h2 3%nat "who") VUndefined [] h2
      ≠ call exampleNative (getProperty exampleHeap 3%nat "who")
          (VObject 3%nat) [] h2.
Proof.
  eexists _, _. split; [vm_compute; reflexivity|].
  split; [vm_compute; reflexivity|].
  split; [vm_compute; reflexivity|].
  vm_compute. intros Heq. inversion Heq.
Qed.

(** C9, amended. A second [protectThis] on the same instance succeeds, and
    every own property name of the instance's prototype whose value, read
    on the instance, was a function then still hands its arguments to the
    function the first one replaced, with the instance as context, exactly
    as after the first; and when no own property name of the prototype
    reads as a function on the instance, [protectThis] changes nothing. *)
Theorem protectThis_twice native object h o proto p :
  h !! object = Some o → prototype o = Some proto → h !! proto = Some p →
  ∃ h1 h2,
    protectThis object h = Some h1 ∧
    protectThis object h1 = Some h2 ∧
    (∀ name,
       is_Some (properties p !! name) →
       typeof (getProperty h object name) = "function" →
       ∀ this arguments hh,
         call native (getProperty h2 object name) this arguments hh
           = call native (getProperty h object name) (VObject object) arguments hh ∧
         call native (getProperty h2 object name) this arguments hh
           = call native (getProperty h1 object name) this arguments hh) ∧
    ((∀ name, is_Some (properties p !! name) →
        typeof (getProperty h object name) ≠ "function") → h1 = h).
Proof.
  intros Ho Hproto Hp.
  destruct (protectThis_spec object h o proto p Ho Hproto Hp)
    as (h1 & Hrun1 & _ & _ & (o1 & Ho1 & Hproto1) & (p1 & Hp1 & Hdom) & Hget1 & Hnoop).
  destruct (protectThis_spec object h1 o1 proto p1 Ho1 Hproto1 Hp1)
    as (h2 & Hrun2 & _ & _ & _ & _ & Hget2 & _).
  exists h1, h2. split; [done|]. split; [done|]. split; [|done].
  intros name Hown Hfun this arguments hh.
  assert (Hown1 : is_Some (properties p1 !! name)).
  { apply elem_of_dom, Hdom, elem_of_dom, Hown. }
  assert (Hfun1 : typeof (getProperty h1 object name) = "function").
  { by rewrite (Hget1 name Hown Hfun). }
  rewrite (Hget2 name Hown1 Hfun1), (Hget1 name Hown Hfun).
  by rewrite !call_protected.
Qed.

Lemma protectThis_twice_witness :
  ∃ h1 h2,
    protectThis 3%nat exampleHeap = Some h1 ∧
    protectThis 3%nat h1 = Some h2 ∧
    (∀ name,
       is_Some (properties
                  (mkObject (Some 1%nat)
                     {[ "constructor" := VNative 0; "getName" := VNative 2 ]})
                  !! name) →
       typeof (getProperty exampleHeap 3%nat name) = "function" →
       ∀ this arguments hh,
         call exampleNative (getProperty h2 3%nat name) this arguments hh
           = call exampleNative (getProperty exampleHeap 3%nat name)
               (VObject 3%nat) arguments hh ∧
         call exampleNative (getProperty h2 3%nat name) this arguments hh
           = call exampleNative (getProperty h1 3%nat name) this arguments hh) ∧
    ((∀ name,
        is_Some (properties
                   (mkObject (Some 1%nat)
                      {[ "constructor" := VNative 0; "getName" := VNative 2 ]})
                   !! name) →
        typeof (getProperty exampleHeap 3%nat name) ≠ "function") →
     h1 = exampleHeap).
Proof.
  apply (protectThis_twice exampleNative 3%nat exampleHeap
           (mkObject (Some 2%nat) {[ "name" := VString "first" ]}) 2%nat).
  - vm_compute. reflexivity.
  - reflexivity.
  - vm_compute. reflexivity.
Defined.

End ProtectThisProperties.

(** * Part III: further properties of the two files *)

(** ** The order [>] on strings and on primitives *)

Lemma string_lt_irrefl x : string_lt x x = false.
Proof.
  induction x as [|a x IH]; simpl; [done|].
  by rewrite Nat.ltb_irrefl.
Qed.

Lemma string_lt_asym x y : string_lt x y = true → string_lt y x = false.
Proof.
  revert y. induction x as [|a x IH]; intros [|b y]; simpl; try done.
  destruct (Nat.ltb_spec (nat_of_ascii a) (nat_of_ascii b)),
    (Nat.ltb_spec (nat_of_ascii b) (nat_of_ascii a)); try done; try lia.
  apply IH.
Qed.

(** "Not less" is transitive: the order on strings is total. *)
Lemma string_lt_negtrans x y z :
  string_lt y x = false → string_lt z y = false → string_lt z x = false.
Proof.
  revert y z. induction x as [|a x IH]; intros [|b y] [|c z]; simpl; try done.
  destruct (Nat.ltb_spec (nat_of_ascii b) (nat_of_ascii a)),
    (Nat.ltb_spec (nat_of_ascii a) (nat_of_ascii b)),
    (Nat.ltb_spec (nat_of_ascii c) (nat_of_ascii b)),
    (Nat.ltb_spec (nat_of_ascii b) (nat_of_ascii c)),
    (Nat.ltb_spec (nat_of_ascii c) (nat_of_ascii a)),
    (Nat.ltb_spec (nat_of_ascii a) (nat_of_ascii c));
    try done; try lia.
  apply IH.
Qed.

Lemma js_gt_asym a b : js_gt a b = true → js_gt b a = false.
Proof.
  unfold js_gt.
  destruct a as [| |x|x| |x], b as [| |y|y| |y]; simpl; try done;
    try (by apply string_lt_asym);
    repeat match goal with
           | |- context [StringToNumber ?s] => destruct (StringToNumber s); simpl
           end; try done;
    intros ?%Z.ltb_lt; apply Z.ltb_ge; lia.
Qed.

Lemma js_gt_undefined_l b : js_gt JsUndefined b = false.
Proof. by destruct b. Qed.

Lemma js_gt_undefined_r a : js_gt a JsUndefined = false.
Proof.
  unfold js_gt. destruct a as [| |x|x| |x]; simpl; try done.
  by destruct (StringToNumber x).
Qed.

Lemma consistent_perm {A} (c : A → A → Z) l l' :
  l ≡ₚ l' → consistent c l → consistent c l'.
Proof.
  intros Hp Hc x y z Hx Hy Hz. rewrite <- Hp in Hx, Hy, Hz. by apply Hc.
Qed.

Lemma consistent_compareRefs h field k l :
  k = 1 ∨ k = -1 →
  consistent (compareRefs h field 1) l → consistent (compareRefs h field k) l.
Proof.
  intros Hk Hcons x y z Hx Hy Hz. unfold keeps.
  rewrite (compareRefs_scale h field k x y), (compareRefs_scale h field k y z),
    (compareRefs_scale h field k x z).
  apply (consistent_scale (compareRefs h field 1) k l); [|done..].
  intros a b. apply compareRefs_antisym.
Qed.

Lemma reverseOf_class_cases d :
  DatatableSorter.reverseOf d = 1 ∨ DatatableSorter.reverseOf d = -1.
Proof. unfold DatatableSorter.reverseOf. destruct (String.eqb _ _); lia. Qed.

Lemma reverseOf_demo_cases d :
  DemoApp.reverseOf d = 1 ∨ DemoApp.reverseOf d = -1.
Proof. unfold DemoApp.reverseOf. destruct (String.eqb _ _); lia. Qed.

(** In a sequence sorted for the factor 1 no record holds a greater value
    than a later one, and for the factor -1 none holds a greater value
    than an earlier one. *)
Lemma keeps_ascending h field x y :
  keeps (compareRefs h field 1) x y →
  js_gt (getField (deref h x) field) (getField (deref h y) field) = false.
Proof.
  unfold keeps, compareRefs, DatatableSorter.sortBy.
  destruct (js_gt (getField (deref h x) field) (getField (deref h y) field)) eqn:Hxy;
    [|done].
  rewrite (js_gt_asym _ _ Hxy). simpl. lia.
Qed.

Lemma keeps_descending h field x y :
  keeps (compareRefs h field (-1)) x y →
  js_gt (getField (deref h y) field) (getField (deref h x) field) = false.
Proof.
  unfold keeps, compareRefs, DatatableSorter.sortBy.
  destruct (js_gt (getField (deref h y) field) (getField (deref h x) field)) eqn:Hyx;
    [|done].
  rewrite (js_gt_asym _ _ Hyx). simpl. lia.
Qed.

(** Sorting again for the same field, in either direction, forgets the
    first sort. *)
Lemma Array_sort_compose h field k1 k2 l :
  k1 = 1 ∨ k1 = -1 → k2 = 1 ∨ k2 = -1 →
  consistent (compareRefs h field 1) l →
  Array_sort (compareRefs h field k2) (Array_sort (compareRefs h field k1) l)
    = Array_sort (compareRefs h field k2) l.
Proof.
  intros Hk1 Hk2 Hcons.
  pose proof (consistent_compareRefs h field k1 l Hk1 Hcons) as Hc1.
  pose proof (consistent_compareRefs h field k2 l Hk2 Hcons) as Hc2.
  assert (Hanti : ∀ k x y, compareRefs h field k y x = - compareRefs h field k x y).
  { intros k x y. apply compareRefs_antisym. }
  assert (Htied : ∀ k x a b, k = 1 ∨ k = -1 → x ∈ l → a ∈ l → b ∈ l →
            tied (compareRefs h field k2) x a → tied (compareRefs h field k2) x b →
            keeps (compareRefs h field k) a b).
  { intros k x a b Hk Hx Ha Hb. unfold tied.
    rewrite (compareRefs_scale h field k2 x a), (compareRefs_scale h field k2 x b).
    intros Hxa Hxb.
    apply (consistent_compareRefs h field k l Hk Hcons a x b Ha Hx Hb); unfold keeps.
    - rewrite (Hanti k x a), (compareRefs_scale h field k x a). nia.
    - rewrite (compareRefs_scale h field k x b). nia. }
  assert (Hc2' : consistent (compareRefs h field k2)
                   (Array_sort (compareRefs h field k1) l)).
  { eapply consistent_perm; [|exact Hc2]. by rewrite Array_sort_perm. }
  apply (Array_sort_canonical (compareRefs h field k2) (Hanti k2) l); [done| | |].
  - by rewrite !Array_sort_perm.
  - by apply StronglySorted_Array_sort.
  - intros x Hx.
    rewrite Array_sort_filter; [|apply Hanti|done|].
    + apply Array_sort_filter; [apply Hanti|done|].
      intros a b Ha Hb. by apply Htied.
    + intros a b Ha Hb. rewrite elem_of_Array_sort in Ha, Hb. by apply Htied.
Qed.

(** ** The comparison function of the class *)

Lemma sortBy_absent_by_lookup field reverse (a b : Row) :
  a !! field = None ∨ b !! field = None →
  DatatableSorter.sortBy field reverse a b = 0.
Proof.
  unfold DatatableSorter.sortBy, getField.
  intros [-> | ->]; simpl;
    rewrite ?js_gt_undefined_l, ?js_gt_undefined_r; simpl; lia.
Qed.

(** X1. On three records that all hold numbers other than NaN, or all
    hold strings, at the field, the comparison function
    [sortBy(field, reverse)] is a consistent comparison: 0 on a record and
    itself, antisymmetric, and "does not compare greater" is transitive,
    whatever the factor. *)
Theorem sortBy_consistent_on_column field reverse (a b c : Row) :
  (∃ x y z, getField a field = JsNumber x ∧ getField b field = JsNumber y ∧
            getField c field = JsNumber z) ∨
  (∃ x y z, getField a field = JsString x ∧ getField b field = JsString y ∧
            getField c field = JsString z) →
  DatatableSorter.sortBy field reverse a a = 0 ∧
  DatatableSorter.sortBy field reverse b a = - DatatableSorter.sortBy field reverse a b ∧
  (DatatableSorter.sortBy field reverse a b ≤ 0 →
   DatatableSorter.sortBy field reverse b c ≤ 0 →
   DatatableSorter.sortBy field reverse a c ≤ 0).
Proof.
  unfold DatatableSorter.sortBy.
  intros [(x & y & z & -> & -> & ->)|(x & y & z & -> & -> & ->)]; simpl.
  - destruct (Z.ltb_spec x x), (Z.ltb_spec y x), (Z.ltb_spec x y),
      (Z.ltb_spec z y), (Z.ltb_spec y z), (Z.ltb_spec z x), (Z.ltb_spec x z);
      simpl; lia.
  - pose proof (string_lt_irrefl x) as Hxx.
    pose proof (string_lt_asym x y) as Hxy. pose proof (string_lt_asym y x) as Hyx.
    pose proof (string_lt_asym y z) as Hyz. pose proof (string_lt_asym z y) as Hzy.
    pose proof (string_lt_asym x z) as Hxz. pose proof (string_lt_asym z x) as Hzx.
    pose proof (string_lt_negtrans x y z) as Ht1.
    pose proof (string_lt_negtrans z y x) as Ht2.
    rewrite Hxx.
    destruct (string_lt x y), (string_lt y x), (string_lt y z), (string_lt z y),
      (string_lt x z), (string_lt z x); simpl in *;
      repeat split; intros; try lia;
      try (specialize (Hxy eq_refl)); try (specialize (Hyx eq_refl));
      try (specialize (Hyz eq_refl)); try (specialize (Hzy eq_refl));
      try (specialize (Hxz eq_refl)); try (specialize (Hzx eq_refl));
      try (specialize (Ht1 eq_refl eq_refl)); try (specialize (Ht2 eq_refl eq_refl));
      try done; try lia.
Qed.

Lemma sortBy_consistent_on_column_witness :
  DatatableSorter.sortBy "age" (-1) (row 1 "a" 40 "x") (row 1 "a" 40 "x") = 0 ∧
  DatatableSorter.sortBy "age" (-1) (row 2 "b" 35 "y") (row 1 "a" 40 "x")
    = - DatatableSorter.sortBy "age" (-1) (row 1 "a" 40 "x") (row 2 "b" 35 "y") ∧
  (DatatableSorter.sortBy "age" (-1) (row 1 "a" 40 "x") (row 2 "b" 35 "y") ≤ 0 →
   DatatableSorter.sortBy "age" (-1) (row 2 "b" 35 "y") (row 3 "c" 30 "z") ≤ 0 →
   DatatableSorter.sortBy "age" (-1) (row 1 "a" 40 "x") (row 3 "c" 30 "z") ≤ 0).
Proof.
  apply (sortBy_consistent_on_column "age" (-1)
           (row 1 "a" 40 "x") (row 2 "b" 35 "y") (row 3 "c" 30 "z")).
  left. exists 40, 35, 30. vm_compute. repeat split; reflexivity.
Defined.

(** X2. When the value either record holds at the field is [undefined]
    or NaN, the comparison function returns 0, whatever the factor and the
    other record's value. *)
Theorem sortBy_undefined_or_NaN field reverse (a b : Row) :
  getField a field ∈ [JsUndefined; JsNaN] ∨
  getField b field ∈ [JsUndefined; JsNaN] →
  DatatableSorter.sortBy field reverse a b = 0.
Proof.
  intros Hvalue. unfold DatatableSorter.sortBy.
  assert (Hnever : ∀ v w, v ∈ [JsUndefined; JsNaN] →
            js_gt v w = false ∧ js_gt w v = false).
  { intros v w Hv.
    assert (v = JsUndefined ∨ v = JsNaN) as [-> | ->].
    { rewrite !elem_of_cons, elem_of_nil in Hv. tauto. }
    all: unfold js_gt; destruct w; simpl; try done;
      by destruct (StringToNumber _). }
  destruct Hvalue as [Ha|Hb].
  - destruct (Hnever _ (getField b field) Ha) as [-> ->]. simpl. lia.
  - destruct (Hnever _ (getField a field) Hb) as [-> ->]. simpl. lia.
Qed.

Lemma sortBy_undefined_or_NaN_witness :
  DatatableSorter.sortBy "age" (-1) {[ "age" := JsNaN ]} (row 2 "b" 35 "y") = 0.
Proof.
  apply (sortBy_undefined_or_NaN "age" (-1) {[ "age" := JsNaN ]}
           (row 2 "b" 35 "y")).
  left. vm_compute. apply elem_of_cons. right. apply elem_of_cons. by left.
Defined.

(** ** The sort entry point of the class *)

(** X4. A call that returns leaves the sorter bound to the same owner and
    slot with the same default direction, and the slot again holds a
    sequence, so that every further call returns too. *)
Theorem sortData_keeps_binding detail this h input :
  DatatableSorter.published this h = Some input →
  ∃ this' h',
    DatatableSorter.sortData detail this h = Some (this', h') ∧
    DatatableSorter.parent this' = DatatableSorter.parent this ∧
    DatatableSorter.dataFieldName this' = DatatableSorter.dataFieldName this ∧
    DatatableSorter.defaultSortDirection this'
      = DatatableSorter.defaultSortDirection this ∧
    ∀ detail', is_Some (DatatableSorter.sortData detail' this' h').
Proof.
  intros Hin.
  destruct (published_inv this h input Hin) as (o & source & Ho & Hs & He).
  destruct (sortData_published detail this h input Hin)
    as (this' & h' & Hrun & Hp & Hf & _ & Hout).
  exists this', h'. split; [done|]. split; [done|]. split; [done|]. split.
  - rewrite (sortData_eq detail this h o source input Ho Hs He) in Hrun.
    by injection Hrun as <- _.
  - intros detail'.
    destruct (sortData_published detail' this' h' _ Hout) as (? & ? & -> & _).
    eauto.
Qed.

Lemma sortData_keeps_binding_witness :
  ∃ this' h',
    DatatableSorter.sortData (SortEvent.mk "age" "asc")
      (DatatableSorter.constructor 0%nat "data") (heap_of "data" data)
      = Some (this', h') ∧
    DatatableSorter.parent this' = 0%nat ∧
    DatatableSorter.dataFieldName this' = "data" ∧
    DatatableSorter.defaultSortDirection this' = "asc" ∧
    ∀ detail', is_Some (DatatableSorter.sortData detail' this' h').
Proof.
  apply (sortData_keeps_binding (SortEvent.mk "age" "asc")
           (DatatableSorter.constructor 0%nat "data") (heap_of "data" data)
           [1; 2; 3; 4]%nat).
  vm_compute. reflexivity.
Defined.

(** X5. When the comparison is consistent on the data, the sequence
    [sortData] publishes is in order: for the direction 'asc' no record
    holds a greater value at the field than a record before it, and for
    any other direction none holds a greater value than a record after
    it. *)
Theorem sortData_order detail this h input :
  DatatableSorter.published this h = Some input →
  consistent (compareRefs h (SortEvent.fieldName detail) 1) input →
  ∃ this' h' output,
    DatatableSorter.sortData detail this h = Some (this', h') ∧
    DatatableSorter.published this' h' = Some output ∧
    ∀ i j x y,
      (i < j)%nat → output !! i = Some x → output !! j = Some y →
      if String.eqb (SortEvent.sortDirection detail) "asc"
      then js_gt (getField (deref h y) (SortEvent.fieldName detail))
                 (getField (deref h x) (SortEvent.fieldName detail)) = false
      else js_gt (getField (deref h x) (SortEvent.fieldName detail))
                 (getField (deref h y) (SortEvent.fieldName detail)) = false.
Proof.
  intros Hin Hcons.
  destruct (sortData_published detail this h input Hin)
    as (this' & h' & Hrun & _ & _ & _ & Hout).
  eexists _, _, _. split; [done|]. split; [done|].
  intros i j x y Hij Hi Hj.
  pose proof (StronglySorted_compareRefs h (SortEvent.fieldName detail)
    (DatatableSorter.reverseOf (SortEvent.sortDirection detail)) input
    (reverseOf_class_cases _) Hcons) as Hsorted.
  pose proof (StronglySorted_lookup _ _ i j x y Hsorted Hij Hi Hj) as Hk.
  unfold DatatableSorter.reverseOf in Hk.
  destruct (String.eqb (SortEvent.sortDirection detail) "asc").
  - by apply keeps_descending.
  - by apply keeps_ascending.
Qed.

Lemma sortData_order_witness :
  ∃ this' h' output,
    DatatableSorter.sortData (SortEvent.mk "age" "desc")
      (DatatableSorter.constructor 0%nat "data") (heap_of "data" data)
      = Some (this', h') ∧
    DatatableSorter.published this' h' = Some output ∧
    ∀ i j x y,
      (i < j)%nat → output !! i = Some x → output !! j = Some y →
      if String.eqb "desc" "asc"
      then js_gt (getField (deref (heap_of "data" data) y) "age")
                 (getField (deref (heap_of "data" data) x) "age") = false
      else js_gt (getField (deref (heap_of "data" data) x) "age")
                 (getField (deref (heap_of "data" data) y) "age") = false.
Proof.
  apply (sortData_order (SortEvent.mk "age" "desc")
           (DatatableSorter.constructor 0%nat "data") (heap_of "data" data)
           [1; 2; 3; 4]%nat).
  - vm_compute. reflexivity.
  - apply consistentb_sound. vm_compute. reflexivity.
Defined.



(** X7. Sorting by a field that no record of the sequence has publishes
    the records in their input order, for every direction. *)
Theorem sortData_absent_field detail this h input :
  DatatableSorter.published this h = Some input →
  (∀ r, r ∈ input → deref h r !! SortEvent.fieldName detail = None) →
  ∃ this' h',
    DatatableSorter.sortData detail this h = Some (this', h') ∧
    DatatableSorter.published this' h' = Some input.
Proof.
  intros Hin Habsent.
  destruct (sortData_published detail this h input Hin)
    as (this' & h' & Hrun & _ & _ & _ & Hout).
  exists this', h'. split; [done|]. rewrite Hout. f_equal.
  apply Array_sort_Sorted_id; [intros x y; apply compareRefs_antisym|].
  clear Hin Hrun Hout. induction input as [|x l IH]; [constructor|].
  constructor.
  - apply IH. intros r Hr. apply Habsent. by right.
  - destruct l as [|y l]; constructor.
    unfold keeps, compareRefs.
    rewrite sortBy_absent_by_lookup; [done|]. left. apply Habsent. by left.
Qed.

Lemma sortData_absent_field_witness :
  ∃ this' h',
    DatatableSorter.sortData (SortEvent.mk "phone" "asc")
      (DatatableSorter.constructor 0%nat "data") (heap_of "data" data)
      = Some (this', h') ∧
    DatatableSorter.published this' h' = Some [1; 2; 3; 4]%nat.
Proof.
  apply (sortData_absent_field (SortEvent.mk "phone" "asc")
           (DatatableSorter.constructor 0%nat "data") (heap_of "data" data)
           [1; 2; 3; 4]%nat).
  - vm_compute. reflexivity.
  - intros r Hr.
    repeat (apply elem_of_cons in Hr as [->|Hr]; [vm_compute; reflexivity|]).
    by apply elem_of_nil in Hr.
Defined.

(** X8. When the comparison is consistent on the data, a call for a field
    followed by a second call for the same field, in whatever directions,
    publishes what the second call alone publishes on the original
    data. *)
Theorem sortData_then_sortData detail1 detail2 this h input :
  DatatableSorter.published this h = Some input →
  SortEvent.fieldName detail1 = SortEvent.fieldName detail2 →
  consistent (compareRefs h (SortEvent.fieldName detail2) 1) input →
  ∃ this1 h1 this2 h2 this2' h2' output,
    DatatableSorter.sortData detail1 this h = Some (this1, h1) ∧
    DatatableSorter.sortData detail2 this1 h1 = Some (this2, h2) ∧
    DatatableSorter.sortData detail2 this h = Some (this2', h2') ∧
    DatatableSorter.published this2 h2 = Some output ∧
    DatatableSorter.published this2' h2' = Some output.
Proof.
  intros Hin Hfield Hcons.
  destruct (sortData_published detail1 this h input Hin)
    as (this1 & h1 & Hrun1 & _ & _ & Hrec & Hout1).
  destruct (sortData_published detail2 this1 h1 _ Hout1)
    as (this2 & h2 & Hrun2 & _ & _ & _ & Hout2).
  destruct (sortData_published detail2 this h input Hin)
    as (this2' & h2' & Hrun2' & _ & _ & _ & Hout2').
  eexists _, _, _, _, _, _, _.
  split; [done|]. split; [done|]. split; [done|]. split; [exact Hout2|].
  rewrite Hout2'. f_equal.
  assert (Hcmp : ∀ f r, compareRefs h1 f r = compareRefs h f r).
  { intros f r. unfold compareRefs, deref. by rewrite Hrec. }
  rewrite Hcmp, Hfield.
  symmetry. apply Array_sort_compose; [apply reverseOf_class_cases..|done].
Qed.

Lemma sortData_then_sortData_witness :
  ∃ this1 h1 this2 h2 this2' h2' output,
    DatatableSorter.sortData (SortEvent.mk "age" "asc")
      (DatatableSorter.constructor 0%nat "data") (heap_of "data" data)
      = Some (this1, h1) ∧
    DatatableSorter.sortData (SortEvent.mk "age" "desc") this1 h1
      = Some (this2, h2) ∧
    DatatableSorter.sortData (SortEvent.mk "age" "desc")
      (DatatableSorter.constructor 0%nat "data") (heap_of "data" data)
      = Some (this2', h2') ∧
    DatatableSorter.published this2 h2 = Some output ∧
    DatatableSorter.published this2' h2' = Some output.
Proof.
  apply (sortData_then_sortData (SortEvent.mk "age" "asc")
           (SortEvent.mk "age" "desc")
           (DatatableSorter.constructor 0%nat "data") (heap_of "data" data)
           [1; 2; 3; 4]%nat).
  - vm_compute. reflexivity.
  - reflexivity.
  - apply consistentb_sound. vm_compute. reflexivity.
Defined.

(** ** The demo component *)

Lemma onHandleSort_eq detail this h elems :
  arrays h !! DemoApp.data this = Some elems →
  let cloneData := fresh (dom (arrays h)) in
  let sorted :=
    Array_sort (compareRefs h (SortEvent.fieldName detail)
                  (DemoApp.reverseOf (SortEvent.sortDirection detail))) elems in
  DemoApp.onHandleSort detail this h =
    Some (DemoApp.mk cloneData (DemoApp.defaultSortDirection this)
            (SortEvent.sortDirection detail) (Some (SortEvent.fieldName detail)),
          mkHeap (records h) (<[cloneData := sorted]> (arrays h)) (owners h)).
Proof.
  intros He. unfold DemoApp.onHandleSort, spread. rewrite He. simpl.
  unfold sort_in_place. simpl. rewrite lookup_insert_eq. simpl.
  by rewrite insert_insert_eq.
Qed.

(** X9. The comparison function of the demo component is antisymmetric
    for every primer and returns 0 on two records that hold the same value
    at the field; without a primer it is the comparison function of the
    class. *)
Theorem demo_sortBy_contract field reverse primer (a b : Row) :
  DemoApp.sortBy field reverse primer b a = - DemoApp.sortBy field reverse primer a b ∧
  (getField a field = getField b field →
   DemoApp.sortBy field reverse primer a b = 0) ∧
  DemoApp.sortBy field reverse None a b = DatatableSorter.sortBy field reverse a b.
Proof.
  unfold DemoApp.sortBy, DatatableSorter.sortBy.
  destruct primer as [primer|]; repeat split; try lia; intros ->; lia.
Qed.

(** X10. When [this.data] holds a sequence of records, [onHandleSort]
    returns, and the component then exposes the field and the direction of
    the event, with its default direction unchanged. *)
Theorem onHandleSort_state detail this h input :
  DemoApp.published this h = Some input →
  ∃ this' h',
    DemoApp.onHandleSort detail this h = Some (this', h') ∧
    DemoApp.sortedBy this' = Some (SortEvent.fieldName detail) ∧
    DemoApp.sortDirection this' = SortEvent.sortDirection detail ∧
    DemoApp.defaultSortDirection this' = DemoApp.defaultSortDirection this.
Proof.
  unfold DemoApp.published. intros He.
  eexists _, _. split; [by apply onHandleSort_eq|].
  simpl. by repeat split.
Qed.

Lemma onHandleSort_state_witness :
  ∃ this' h',
    DemoApp.onHandleSort (SortEvent.mk "age" "desc") (DemoApp.init 0%nat)
      (heap_of "data" data) = Some (this', h') ∧
    DemoApp.sortedBy this' = Some "age" ∧
    DemoApp.sortDirection this' = "desc" ∧
    DemoApp.defaultSortDirection this'
      = DemoApp.defaultSortDirection (DemoApp.init 0%nat).
Proof.
  apply (onHandleSort_state (SortEvent.mk "age" "desc") (DemoApp.init 0%nat)
           (heap_of "data" data) [1; 2; 3; 4]%nat).
  vm_compute. reflexivity.
Defined.

(** X11. [onHandleSort] leaves the array it read as it was, mutates no
    record, no other array and no owner, and makes [this.data] an array
    that did not exist before the call. *)
Theorem onHandleSort_frame detail this h input :
  DemoApp.published this h = Some input →
  ∃ this' h',
    DemoApp.onHandleSort detail this h = Some (this', h') ∧
    arrays h' !! DemoApp.data this = Some input ∧
    records h' = records h ∧
    owners h' = owners h ∧
    (∀ a, a ∈ dom (arrays h) → arrays h' !! a = arrays h !! a) ∧
    (DemoApp.data this' ∉ dom (arrays h)) ∧
    is_Some (arrays h' !! DemoApp.data this').
Proof.
  unfold DemoApp.published. intros He.
  pose proof (is_fresh (dom (arrays h))) as Hfresh.
  eexists _, _. split; [by apply onHandleSort_eq|]. simpl.
  assert (Hframe : ∀ a, a ∈ dom (arrays h) →
            <[fresh (dom (arrays h)) :=
                Array_sort (compareRefs h (SortEvent.fieldName detail)
                  (DemoApp.reverseOf (SortEvent.sortDirection detail))) input]>
              (arrays h) !! a = arrays h !! a).
  { intros a Ha. apply lookup_insert_ne. by intros <-. }
  split; [|split; [done|split; [done|split; [done|split; [done|]]]]].
  - rewrite Hframe; [done|]. apply elem_of_dom. eauto.
  - rewrite lookup_insert_eq. eauto.
Qed.

Lemma onHandleSort_frame_witness :
  ∃ this' h',
    DemoApp.onHandleSort (SortEvent.mk "age" "asc") (DemoApp.init 0%nat)
      (heap_of "data" data) = Some (this', h') ∧
    arrays h' !! 0%nat = Some [1; 2; 3; 4]%nat ∧
    records h' = records (heap_of "data" data) ∧
    owners h' = owners (heap_of "data" data) ∧
    (∀ a, a ∈ dom (arrays (heap_of "data" data)) →
       arrays h' !! a = arrays (heap_of "data" data) !! a) ∧
    (DemoApp.data this' ∉ dom (arrays (heap_of "data" data))) ∧
    is_Some (arrays h' !! DemoApp.data this').
Proof.
  apply (onHandleSort_frame (SortEvent.mk "age" "asc") (DemoApp.init 0%nat)
           (heap_of "data" data) [1; 2; 3; 4]%nat).
  vm_compute. reflexivity.
Defined.

(** X12. The sequence [onHandleSort] publishes is a permutation of the
    one it read; and when the comparison is consistent on the data, two
    records with equal values at the field occur in it in their input
    order, for every direction. *)
Theorem onHandleSort_permutation_stable detail this h input :
  DemoApp.published this h = Some input →
  ∃ this' h' output,
    DemoApp.onHandleSort detail this h = Some (this', h') ∧
    DemoApp.published this' h' = Some output ∧
    (output ≡ₚ input) ∧
    (consistent (compareRefs h (SortEvent.fieldName detail) 1) input →
     ∀ p q,
       getField (deref h p) (SortEvent.fieldName detail)
         = getField (deref h q) (SortEvent.fieldName detail) →
       filter (λ r, r = p ∨ r = q) output = filter (λ r, r = p ∨ r = q) input).
Proof.
  intros Hin.
  destruct (onHandleSort_published detail this h input Hin)
    as (this' & h' & Hrun & Hout).
  eexists _, _, _. split; [done|]. split; [done|]. split.
  - apply Array_sort_perm.
  - intros Hcons p q Heq. apply Array_sort_filter.
    + apply compareRefs_antisym.
    + apply consistent_compareRefs; [apply reverseOf_demo_cases|done].
    + intros x y _ _ Hx Hy. unfold keeps.
      rewrite compareRefs_equal_values; [done|].
      destruct Hx as [->| ->], Hy as [->| ->]; congruence.
Qed.

Lemma onHandleSort_permutation_stable_witness :
  ∃ this' h' output,
    DemoApp.onHandleSort (SortEvent.mk "age" "asc") (DemoApp.init 0%nat)
      (heap_of "data" (ages [40; 35; 40; 35])) = Some (this', h') ∧
    DemoApp.published this' h' = Some output ∧
    (output ≡ₚ [1; 2; 3; 4]%nat) ∧
    (consistent (compareRefs (heap_of "data" (ages [40; 35; 40; 35])) "age" 1)
       [1; 2; 3; 4]%nat →
     ∀ p q,
       getField (deref (heap_of "data" (ages [40; 35; 40; 35])) p) "age"
         = getField (deref (heap_of "data" (ages [40; 35; 40; 35])) q) "age" →
       filter (λ r, r = p ∨ r = q) output
         = filter (λ r, r = p ∨ r = q) [1; 2; 3; 4]%nat).
Proof.
  apply (onHandleSort_permutation_stable (SortEvent.mk "age" "asc")
           (DemoApp.init 0%nat) (heap_of "data" (ages [40; 35; 40; 35]))
           [1; 2; 3; 4]%nat).
  vm_compute. reflexivity.
Defined.

(** X13. When the comparison is consistent on the data, the sequence
    [onHandleSort] publishes is in order: for the direction 'asc' no
    record holds a greater value at the field than a record after it, and
    for any other direction none holds a greater value than a record
    before it. *)
Theorem onHandleSort_order detail this h input :
  DemoApp.published this h = Some input →
  consistent (compareRefs h (SortEvent.fieldName detail) 1) input →
  ∃ this' h' output,
    DemoApp.onHandleSort detail this h = Some (this', h') ∧
    DemoApp.published this' h' = Some output ∧
    ∀ i j x y,
      (i < j)%nat → output !! i = Some x → output !! j = Some y →
      if String.eqb (SortEvent.sortDirection detail) "asc"
      then js_gt (getField (deref h x) (SortEvent.fieldName detail))
                 (getField (deref h y) (SortEvent.fieldName detail)) = false
      else js_gt (getField (deref h y) (SortEvent.fieldName detail))
                 (getField (deref h x) (SortEvent.fieldName detail)) = false.
Proof.
  intros Hin Hcons.
  destruct (onHandleSort_published detail this h input Hin)
    as (this' & h' & Hrun & Hout).
  eexists _, _, _. split; [done|]. split; [done|].
  intros i j x y Hij Hi Hj.
  pose proof (StronglySorted_compareRefs h (SortEvent.fieldName detail)
    (DemoApp.reverseOf (SortEvent.sortDirection detail)) input
    (reverseOf_demo_cases _) Hcons) as Hsorted.
  pose proof (StronglySorted_lookup _ _ i j x y Hsorted Hij Hi Hj) as Hk.
  unfold DemoApp.reverseOf in Hk.
  destruct (String.eqb (SortEvent.sortDirection detail) "asc").
  - by apply keeps_ascending.
  - by apply keeps_descending.
Qed.

Lemma onHandleSort_order_witness :
  ∃ this' h' output,
    DemoApp.onHandleSort (SortEvent.mk "age" "asc") (DemoApp.init 0%nat)
      (heap_of "data" data) = Some (this', h') ∧
    DemoApp.published this' h' = Some output ∧
    ∀ i j x y,
      (i < j)%nat → output !! i = Some x → output !! j = Some y →
      if String.eqb "asc" "asc"
      then js_gt (getField (deref (heap_of "data" data) x) "age")
                 (getField (deref (heap_of "data" data) y) "age") = false
      else js_gt (getField (deref (heap_of "data" data) y) "age")
                 (getField (deref (heap_of "data" data) x) "age") = false.
Proof.
  apply (onHandleSort_order (SortEvent.mk "age" "asc") (DemoApp.init 0%nat)
           (heap_of "data" data) [1; 2; 3; 4]%nat).
  - vm_compute. reflexivity.
  - apply consistentb_sound. vm_compute. reflexivity.
Defined.

(** X14. On the same data the demo component publishes for 'asc' what the
    class publishes for 'desc', and for 'desc' what the class publishes
    for 'asc'. *)
Theorem demo_is_class_with_other_direction field app sorter h input :
  DemoApp.published app h = Some input →
  DatatableSorter.published sorter h = Some input →
  ∃ app1 hd1 sorter1 hc1 app2 hd2 sorter2 hc2 up down,
    DemoApp.onHandleSort (SortEvent.mk field "asc") app h = Some (app1, hd1) ∧
    DatatableSorter.sortData (SortEvent.mk field "desc") sorter h
      = Some (sorter1, hc1) ∧
    DemoApp.published app1 hd1 = Some up ∧
    DatatableSorter.published sorter1 hc1 = Some up ∧
    DemoApp.onHandleSort (SortEvent.mk field "desc") app h = Some (app2, hd2) ∧
    DatatableSorter.sortData (SortEvent.mk field "asc") sorter h
      = Some (sorter2, hc2) ∧
    DemoApp.published app2 hd2 = Some down ∧
    DatatableSorter.published sorter2 hc2 = Some down.
Proof.
  intros Hd Hc.
  destruct (onHandleSort_published (SortEvent.mk field "asc") app h input Hd)
    as (app1 & hd1 & Hrd1 & Hod1).
  destruct (sortData_published (SortEvent.mk field "desc") sorter h input Hc)
    as (sorter1 & hc1 & Hrc1 & _ & _ & _ & Hoc1).
  destruct (onHandleSort_published (SortEvent.mk field "desc") app h input Hd)
    as (app2 & hd2 & Hrd2 & Hod2).
  destruct (sortData_published (SortEvent.mk field "asc") sorter h input Hc)
    as (sorter2 & hc2 & Hrc2 & _ & _ & _ & Hoc2).
  exists app1, hd1, sorter1, hc1, app2, hd2, sorter2, hc2.
  eexists _, _. repeat split; eassumption.
Qed.

Lemma demo_is_class_with_other_direction_witness :
  ∃ app1 hd1 sorter1 hc1 app2 hd2 sorter2 hc2 up down,
    DemoApp.onHandleSort (SortEvent.mk "age" "asc") (DemoApp.init 0%nat)
      (heap_of "data" data) = Some (app1, hd1) ∧
    DatatableSorter.sortData (SortEvent.mk "age" "desc")
      (DatatableSorter.constructor 0%nat "data") (heap_of "data" data)
      = Some (sorter1, hc1) ∧
    DemoApp.published app1 hd1 = Some up ∧
    DatatableSorter.published sorter1 hc1 = Some up ∧
    DemoApp.onHandleSort (SortEvent.mk "age" "desc") (DemoApp.init 0%nat)
      (heap_of "data" data) = Some (app2, hd2) ∧
    DatatableSorter.sortData (SortEvent.mk "age" "asc")
      (DatatableSorter.constructor 0%nat "data") (heap_of "data" data)
      = Some (sorter2, hc2) ∧
    DemoApp.published app2 hd2 = Some down ∧
    DatatableSorter.published sorter2 hc2 = Some down.
Proof.
  apply (demo_is_class_with_other_direction "age" (DemoApp.init 0%nat)
           (DatatableSorter.constructor 0%nat "data") (heap_of "data" data)
           [1; 2; 3; 4]%nat); vm_compute; reflexivity.
Defined.



(** ** More on [protectThis] *)

Section ProtectThisMore.
Import ProtectThis.
Implicit Types (h : ObjectHeap) (object r : Ref) (name : string) (v : Value).

(** The own properties the rounds of the [forEach] leave on the object. *)
Lemma foldl_protectOne_own object names :
  NoDup names → ∀ h o, h !! object = Some o →
  ∃ o',
    foldl (protectOne object) h names !! object = Some o' ∧
    prototype o' = prototype o ∧
    ∀ name,
      properties o' !! name
        = if decide (name ∈ names)
          then Some (VProtected (getProperty h object name) object)
          else properties o !! name.
Proof.
  induction 1 as [|n names Hn Hnd IH]; intros h o Ho; cbn [foldl].
  { exists o. split; [done|]. split; [done|]. intros name.
    rewrite decide_False; [done|]. apply not_elem_of_nil. }
  pose proof (lookup_setProperty_eq h object n
    (VProtected (getProperty h object n) object) o Ho) as Hset.
  destruct (IH _ _ Hset) as (o' & Ho' & Hproto & Hprops).
  exists o'. split; [done|]. split; [done|]. intros name.
  rewrite (Hprops name). cbn [properties].
  destruct (decide (name = n)) as [->|Hne].
  - rewrite (decide_False (P := n ∈ names)) by done.
    rewrite decide_True by left. by rewrite lookup_insert_eq.
  - rewrite lookup_insert_ne by done.
    rewrite getProperty_setProperty_ne by done.
    destruct (decide (name ∈ names)) as [Hin|Hin].
    + rewrite decide_True by (by right). done.
    + rewrite decide_False; [done|]. rewrite elem_of_cons. tauto.
Qed.

(** Everything [protectThis] leaves behind, name by name. *)
Lemma protectThis_full object h o proto p :
  h !! object = Some o → prototype o = Some proto → h !! proto = Some p →
  ∃ h' o',
    protectThis object h = Some h' ∧
    size h' = size h ∧
    (∀ r, r ≠ object → h' !! r = h !! r) ∧
    h' !! object = Some o' ∧
    prototype o' = Some proto ∧
    (∀ name,
       properties o' !! name
         = if decide (is_Some (properties p !! name) ∧
                      typeof (getProperty h object name) = "function")
           then Some (VProtected (getProperty h object name) object)
           else properties o !! name) ∧
    (∀ name,
       getProperty h' object name
         = if decide (is_Some (properties p !! name) ∧
                      typeof (getProperty h object name) = "function")
           then VProtected (getProperty h object name) object
           else getProperty h object name).
Proof.
  intros Ho Hproto Hp.
  destruct (functionNames_spec object h o proto p Ho Hproto Hp)
    as (names & Hnames & Hnd & Hin).
  destruct (foldl_protectOne_own object names Hnd h o Ho)
    as (o' & Ho' & Hproto' & Hprops).
  unfold protectThis. rewrite Hnames. simpl.
  exists (foldl (protectOne object) h names), o'.
  split; [done|]. split; [apply size_foldl_protectOne|].
  split; [intros r Hr; by apply foldl_protectOne_frame|].
  split; [done|]. split; [by rewrite Hproto'|]. split.
  - intros name. rewrite (Hprops name). apply decide_ext, Hin.
  - intros name.
    rewrite (foldl_protectOne_getProperty object names Hnd h) by eauto.
    apply decide_ext, Hin.
Qed.

Lemma size_two h a b :
  is_Some (h !! a) → is_Some (h !! b) → a ≠ b → (2 ≤ size h)%nat.
Proof.
  intros Ha Hb Hne.
  pose proof (map_size_delete a h) as Hdel.
  destruct Ha as [x Ha]. rewrite Ha in Hdel.
  assert (Hnz : size (delete a h) ≠ 0%nat).
  { apply (map_size_ne_0_lookup_2 _ b). by rewrite lookup_delete_ne. }
  assert (size h ≠ 0%nat) by (apply (map_size_ne_0_lookup_2 _ a); eauto).
  simpl in Hdel. lia.
Qed.

Lemma getProperty_own h object o name v :
  h !! object = Some o → properties o !! name = Some v →
  getProperty h object name = v.
Proof.
  intros Ho Hv. unfold getProperty.
  destruct (size h) as [|n] eqn:Hsize.
  { apply map_size_empty_inv in Hsize. subst h. by rewrite lookup_empty in Ho. }
  simpl. by rewrite Ho, Hv.
Qed.

End ProtectThisMore.

Section ProtectThisExtras.
Import ProtectThis.
Implicit Types (h : ObjectHeap) (object r : Ref) (name : string) (v : Value).

(** X17. After [protectThis] every property of the instance has the
    [typeof] it had, and every property it does not rewrite (a data
    field, or a method that is not an own property of the prototype)
    reads as before. *)
Theorem protectThis_keeps_reads object h o proto p :
  h !! object = Some o → prototype o = Some proto → h !! proto = Some p →
  ∃ h',
    protectThis object h = Some h' ∧
    ∀ name,
      typeof (getProperty h' object name) = typeof (getProperty h object name) ∧
      (¬ (is_Some (properties p !! name) ∧
          typeof (getProperty h object name) = "function") →
       getProperty h' object name = getProperty h object name).
Proof.
  intros Ho Hproto Hp.
  destruct (protectThis_full object h o proto p Ho Hproto Hp)
    as (h' & o' & Hrun & _ & _ & _ & _ & _ & Hget).
  exists h'. split; [done|]. intros name. rewrite (Hget name).
  destruct (decide _) as [[Hown Hfun]|Hno]; [|done].
  split; [by rewrite Hfun|]. intros Hnot. destruct Hnot. done.
Qed.

Lemma protectThis_keeps_reads_witness :
  ∃ h',
    protectThis 3%nat exampleHeap = Some h' ∧
    ∀ name,
      typeof (getProperty h' 3%nat name)
        = typeof (getProperty exampleHeap 3%nat name) ∧
      (¬ (is_Some (properties
                     (mkObject (Some 1%nat)
                        {[ "constructor" := VNative 0; "getName" := VNative 2 ]})
                     !! name) ∧
          typeof (getProperty exampleHeap 3%nat name) = "function") →
       getProperty h' 3%nat name = getProperty exampleHeap 3%nat name).
Proof.
  apply (protectThis_keeps_reads 3%nat exampleHeap
           (mkObject (Some 2%nat) {[ "name" := VString "first" ]}) 2%nat).
  - vm_compute. reflexivity.
  - reflexivity.
  - vm_compute. reflexivity.
Defined.

(** X18. [protectThis] keeps the prototype of the instance and removes
    none of its own properties; the own properties afterwards are those
    it had and the names it rewrites, each rewritten name now holding its
    closure as an own property. *)
Theorem protectThis_own_properties object h o proto p :
  h !! object = Some o → prototype o = Some proto → h !! proto = Some p →
  ∃ h' o',
    protectThis object h = Some h' ∧
    h' !! object = Some o' ∧
    prototype o' = prototype o ∧
    ∀ name,
      (is_Some (properties o' !! name) ↔
       is_Some (properties o !! name) ∨
       (is_Some (properties p !! name) ∧
        typeof (getProperty h object name) = "function")) ∧
      (is_Some (properties p !! name) →
       typeof (getProperty h object name) = "function" →
       properties o' !! name
         = Some (VProtected (getProperty h object name) object)).
Proof.
  intros Ho Hproto Hp.
  destruct (protectThis_full object h o proto p Ho Hproto Hp)
    as (h' & o' & Hrun & _ & _ & Ho' & Hproto' & Hprops & _).
  exists h', o'. split; [done|]. split; [done|]. split; [congruence|].
  intros name. rewrite (Hprops name).
  destruct (decide _) as [Hyes|Hno].
  - split; [|done]. split; [by right|eauto].
  - split; [|tauto]. split; [by left|]. intros [?|?]; tauto.
Qed.

Lemma protectThis_own_properties_witness :
  ∃ h' o',
    protectThis 3%nat exampleHeap = Some h' ∧
    h' !! 3%nat = Some o' ∧
    prototype o'
      = prototype (mkObject (Some 2%nat) {[ "name" := VString "first" ]}) ∧
    ∀ name,
      (is_Some (properties o' !! name) ↔
       is_Some (properties
                  (mkObject (Some 2%nat) {[ "name" := VString "first" ]})
                  !! name) ∨
       (is_Some (properties
                   (mkObject (Some 1%nat)
                      {[ "constructor" := VNative 0; "getName" := VNative 2 ]})
                   !! name) ∧
        typeof (getProperty exampleHeap 3%nat name) = "function")) ∧
      (is_Some (properties
                  (mkObject (Some 1%nat)
                     {[ "constructor" := VNative 0; "getName" := VNative 2 ]})
                  !! name) →
       typeof (getProperty exampleHeap 3%nat name) = "function" →
       properties o' !! name
         = Some (VProtected (getProperty exampleHeap 3%nat name) 3%nat)).
Proof.
  apply (protectThis_own_properties 3%nat exampleHeap
           (mkObject (Some 2%nat) {[ "name" := VString "first" ]}) 2%nat).
  - vm_compute. reflexivity.
  - reflexivity.
  - vm_compute. reflexivity.
Defined.

(** X19. A method [protectThis] has rewritten no longer follows the
    prototype: whatever is later written to other objects, the prototype
    among them, the instance reads the same closure. *)
Theorem protectThis_method_is_pinned object h o proto p name :
  h !! object = Some o → prototype o = Some proto → h !! proto = Some p →
  is_Some (properties p !! name) →
  typeof (getProperty h object name) = "function" →
  ∃ h',
    protectThis object h = Some h' ∧
    ∀ later,
      later !! object = h' !! object →
      getProperty later object name = VProtected (getProperty h object name) object.
Proof.
  intros Ho Hproto Hp Hown Hfun.
  destruct (protectThis_full object h o proto p Ho Hproto Hp)
    as (h' & o' & Hrun & _ & _ & Ho' & _ & Hprops & _).
  exists h'. split; [done|]. intros later Hlater.
  rewrite Ho' in Hlater.
  apply (getProperty_own later object o'); [done|].
  rewrite (Hprops name). by rewrite decide_True.
Qed.

Lemma protectThis_method_is_pinned_witness :
  ∃ h',
    protectThis 3%nat exampleHeap = Some h' ∧
    ∀ later,
      later !! 3%nat = h' !! 3%nat →
      getProperty later 3%nat "getName"
        = VProtected (getProperty exampleHeap 3%nat "getName") 3%nat.
Proof.
  apply (protectThis_method_is_pinned 3%nat exampleHeap
           (mkObject (Some 2%nat) {[ "name" := VString "first" ]}) 2%nat
           (mkObject (Some 1%nat)
              {[ "constructor" := VNative 0; "getName" := VNative 2 ]})
           "getName").
  - vm_compute. reflexivity.
  - reflexivity.
  - vm_compute. reflexivity.
  - exists (VNative 2). vm_compute. reflexivity.
  - vm_compute. reflexivity.
Defined.

(** X20. However many times [protectThis] is applied to an instance, once
    or more, every method it rewrites, called with any context or none,
    does what the function it first replaced does on the instance. *)
Theorem protectTimes_forwards native n object h o proto p name :
  h !! object = Some o → prototype o = Some proto → h !! proto = Some p →
  is_Some (properties p !! name) →
  typeof (getProperty h object name) = "function" →
  ∃ hn,
    protectTimes (S n) object h = Some hn ∧
    ∀ this arguments hh,
      call native (getProperty hn object name) this arguments hh
        = call native (getProperty h object name) (VObject object) arguments hh.
Proof.
  revert h o p. induction n as [|n IH]; intros h o p Ho Hproto Hp Hown Hfun;
    destruct (protectThis_full object h o proto p Ho Hproto Hp)
      as (h1 & o1 & Hrun & _ & Hframe & Ho1 & Hproto1 & Hprops & Hget).
  - exists h1. cbn [protectTimes]. rewrite Hrun. split; [done|].
    intros this arguments hh. rewrite (Hget name).
    by rewrite decide_True.
  - assert (Hget1 : getProperty h1 object name
                      = VProtected (getProperty h object name) object).
    { rewrite (Hget name). by rewrite decide_True. }
    assert (∃ p1, h1 !! proto = Some p1 ∧ is_Some (properties p1 !! name))
      as (p1 & Hp1 & Hown1).
    { destruct (decide (proto = object)) as [->|Hne].
      - exists o1. split; [done|]. rewrite (Hprops name).
        rewrite decide_True by done. eauto.
      - exists p. split; [by rewrite Hframe|done]. }
    destruct (IH h1 o1 p1 Ho1 Hproto1 Hp1 Hown1) as (hn & Hrunn & Hcall).
    { by rewrite Hget1. }
    exists hn. split.
    + change (protectTimes (S (S n)) object h)
        with (h' ← protectThis object h; protectTimes (S n) object h').
      rewrite Hrun. exact Hrunn.
    + intros this arguments hh. rewrite (Hcall this arguments hh).
      by rewrite Hget1.
Qed.

Lemma protectTimes_forwards_witness :
  ∃ hn,
    protectTimes 3 3%nat exampleHeap = Some hn ∧
    ∀ this arguments hh,
      call exampleNative (getProperty hn 3%nat "getName") this arguments hh
        = call exampleNative (getProperty exampleHeap 3%nat "getName")
            (VObject 3%nat) arguments hh.
Proof.
  apply (protectTimes_forwards exampleNative 2 3%nat exampleHeap
           (mkObject (Some 2%nat) {[ "name" := VString "first" ]}) 2%nat
           (mkObject (Some 1%nat)
              {[ "constructor" := VNative 0; "getName" := VNative 2 ]})
           "getName").
  - vm_compute. reflexivity.
  - reflexivity.
  - vm_compute. reflexivity.
  - exists (VNative 2). vm_compute. reflexivity.
  - vm_compute. reflexivity.
Defined.

(** X21. An object created from a protected instance, with no own
    property of the name, inherits the closure: its method call runs with
    the instance as context, not with the calling object. *)
Theorem protectThis_binds_inheriting_objects native object h o proto p child c name :
  h !! object = Some o → prototype o = Some proto → h !! proto = Some p →
  is_Some (properties p !! name) →
  typeof (getProperty h object name) = "function" →
  child ≠ object → h !! child = Some c →
  prototype c = Some object → properties c !! name = None →
  ∃ h',
    protectThis object h = Some h' ∧
    ∀ arguments hh,
      call native (getProperty h' child name) (VObject child) arguments hh
        = call native (getProperty h object name) (VObject object) arguments hh.
Proof.
  intros Ho Hproto Hp Hown Hfun Hne Hc Hcproto Hcname.
  destruct (protectThis_full object h o proto p Ho Hproto Hp)
    as (h' & o' & Hrun & Hsize & Hframe & Ho' & _ & Hprops & _).
  exists h'. split; [done|]. intros arguments hh.
  assert (Hread : getProperty h' child name
                    = VProtected (getProperty h object name) object).
  { assert (Htwo : (2 ≤ size h)%nat) by (apply (size_two h child object); eauto).
    unfold getProperty at 1. rewrite Hsize.
    destruct (size h) as [|[|n]]; [lia..|].
    simpl. rewrite (Hframe child Hne), Hc, Hcname, Hcproto, Ho'.
    rewrite (Hprops name). by rewrite decide_True. }
  by rewrite Hread.
Qed.

Lemma protectThis_binds_inheriting_objects_witness :
  ∃ h',
    protectThis 3%nat exampleHeapWithChild = Some h' ∧
    ∀ arguments hh,
      call exampleNative (getProperty h' 5%nat "getName") (VObject 5%nat)
          arguments hh
        = call exampleNative (getProperty exampleHeapWithChild 3%nat "getName")
            (VObject 3%nat) arguments hh.
Proof.
  apply (protectThis_binds_inheriting_objects exampleNative 3%nat
           exampleHeapWithChild
           (mkObject (Some 2%nat) {[ "name" := VString "first" ]}) 2%nat
           (mkObject (Some 1%nat)
              {[ "constructor" := VNative 0; "getName" := VNative 2 ]})
           5%nat (mkObject (Some 3%nat) {[ "name" := VString "child" ]})
           "getName").
  - vm_compute. reflexivity.
  - reflexivity.
  - vm_compute. reflexivity.
  - exists (VNative 2). vm_compute. reflexivity.
  - vm_compute. reflexivity.
  - lia.
  - vm_compute. reflexivity.
  - reflexivity.
  - vm_compute. reflexivity.
Defined.

End ProtectThisExtras.

Section ProtectThisOrder.
Import ProtectThis.
Implicit Types (h : ObjectHeap) (object r : Ref) (name : string) (v : Value).

Lemma Object_eq (x y : Object) :
  prototype x = prototype y →
  (∀ name, properties x !! name = properties y !! name) → x = y.
Proof.
  destruct x as [px mx], y as [py my]. simpl. intros -> Hprops.
  f_equal. by apply map_eq.
Qed.

(** [protectThis] on [a], seen from an object [b] whose chain avoids [a]. *)
Lemma protectThis_after_other a b h oa pa ppa ob pb ppb :
  a ≠ b →
  h !! a = Some oa → prototype oa = Some pa → h !! pa = Some ppa →
  h !! b = Some ob → prototype ob = Some pb → h !! pb = Some ppb →
  avoids (size h) h b a = true →
  ∃ ha hb hab oa' ob',
    protectThis a h = Some ha ∧ protectThis b h = Some hb ∧
    protectThis b ha = Some hab ∧
    ha !! a = Some oa' ∧ hb !! b = Some ob' ∧
    hab !! a = Some oa' ∧ hab !! b = Some ob' ∧
    (∀ r, r ≠ a → r ≠ b → hab !! r = h !! r).
Proof.
  intros Hne Ha Hpa Hppa Hb Hpb Hppb Hav.
  destruct (protectThis_full a h oa pa ppa Ha Hpa Hppa)
    as (ha & oa' & Hruna & Hsizea & Hframea & Ha' & _ & _ & _).
  destruct (protectThis_full b h ob pb ppb Hb Hpb Hppb)
    as (hb & ob' & Hrunb & _ & _ & Hb' & Hprotob & Hpropsb & _).
  assert (Htwo : (2 ≤ size h)%nat) by (apply (size_two h a b); eauto).
  assert (Hpbne : pb ≠ a).
  { destruct (size h) as [|[|n]]; [lia..|]. simpl in Hav.
    destruct (decide (b = a)); [done|]. rewrite Hb, Hpb in Hav.
    destruct (decide (pb = a)); [done|]. done. }
  assert (Hba : ha !! b = Some ob) by (rewrite Hframea; done).
  assert (Hppb' : ha !! pb = Some ppb) by (rewrite Hframea; done).
  destruct (protectThis_full b ha ob pb ppb Hba Hpb Hppb')
    as (hab & ob1 & Hrunab & _ & Hframeab & Hb1 & Hprotob1 & Hpropsb1 & _).
  assert (Hget : ∀ name, getProperty ha b name = getProperty h b name).
  { intros name. unfold getProperty. rewrite Hsizea.
    by apply (lookup_chain_avoids _ h ha a). }
  assert (Hob : ob1 = ob').
  { apply Object_eq; [congruence|]. intros name.
    rewrite (Hpropsb1 name), (Hpropsb name), (Hget name). done. }
  subst ob1.
  exists ha, hb, hab, oa', ob'. repeat (split; [done|]).
  split; [by rewrite Hframeab|]. split; [done|].
  intros r Hra Hrb. by rewrite Hframeab, Hframea.
Qed.

(** X22. Two instances whose prototype chains do not pass through
    one another can be protected in either order: both orders succeed
    and leave the same heap. *)
Theorem protectThis_commutes a b h oa pa ppa ob pb ppb :
  a ≠ b →
  h !! a = Some oa → prototype oa = Some pa → h !! pa = Some ppa →
  h !! b = Some ob → prototype ob = Some pb → h !! pb = Some ppb →
  avoids (size h) h a b = true → avoids (size h) h b a = true →
  ∃ ha hb hab,
    protectThis a h = Some ha ∧ protectThis b h = Some hb ∧
    protectThis b ha = Some hab ∧ protectThis a hb = Some hab.
Proof.
  intros Hne Ha Hpa Hppa Hb Hpb Hppb Hab Hba.
  destruct (protectThis_after_other a b h oa pa ppa ob pb ppb
              Hne Ha Hpa Hppa Hb Hpb Hppb Hba)
    as (ha & hb & hab & oa' & ob' & Hruna & Hrunb & Hrunab & Ha' & Hb'
        & Haba & Habb & Habr).
  destruct (protectThis_after_other b a h ob pb ppb oa pa ppa
              (not_eq_sym Hne) Hb Hpb Hppb Ha Hpa Hppa Hab)
    as (hb2 & ha2 & hba & ob2 & oa2 & Hrunb2 & Hruna2 & Hrunba & Hb2 & Ha2
        & Hbab & Hbaa & Hbar).
  assert (hb2 = hb) by congruence. assert (ha2 = ha) by congruence.
  subst hb2 ha2.
  assert (ob2 = ob') by congruence. assert (oa2 = oa') by congruence.
  subst ob2 oa2.
  exists ha, hb, hab. repeat (split; [done|]).
  rewrite Hrunba. f_equal. apply map_eq. intros r.
  destruct (decide (r = a)) as [->|Hra]; [congruence|].
  destruct (decide (r = b)) as [->|Hrb]; [congruence|].
  by rewrite Habr, Hbar.
Qed.

Lemma protectThis_commutes_witness :
  ∃ ha hb hab,
    protectThis 3%nat exampleHeap = Some ha ∧
    protectThis 4%nat exampleHeap = Some hb ∧
    protectThis 4%nat ha = Some hab ∧ protectThis 3%nat hb = Some hab.
Proof.
  apply (protectThis_commutes 3%nat 4%nat exampleHeap
           (mkObject (Some 2%nat) {[ "name" := VString "first" ]}) 2%nat
           (mkObject (Some 1%nat)
              {[ "constructor" := VNative 0; "getName" := VNative 2 ]})
           (mkObject (Some 2%nat) {[ "name" := VString "second" ]}) 2%nat
           (mkObject (Some 1%nat)
              {[ "constructor" := VNative 0; "getName" := VNative 2 ]})).
  - lia.
  - vm_compute. reflexivity.
  - reflexivity.
  - vm_compute. reflexivity.
  - vm_compute. reflexivity.
  - reflexivity.
  - vm_compute. reflexivity.
  - vm_compute. reflexivity.
  - vm_compute. reflexivity.
Defined.

End ProtectThisOrder.

Section NewDatatableSorter.
Import ProtectThis.
Implicit Types (h : ObjectHeap) (object r : Ref) (name : string) (v : Value).

Lemma getProperty_setProperty_own h object name v o name' w :
  h !! object = Some o → name' ≠ name → properties o !! name' = Some w →
  getProperty (setProperty h object name v) object name' = w.
Proof.
  intros Ho Hne Hw. rewrite getProperty_setProperty_ne by done.
  by apply (getProperty_own h object o).
Qed.

(** X23. [new DatatableSorter(parent, dataFieldName)] succeeds whenever
    the class prototype is on the heap; it creates one object, changes no
    other, and the new sorter holds the directions 'asc', the sort field
    [null], the given [parent] and [dataFieldName], and for each method of
    the prototype a closure bound to the new sorter: [sortData] taken off
    the sorter and called with any context runs the prototype's
    [sortData] on the sorter. *)
Theorem newDatatableSorter_spec native classPrototype parent dataFieldName h p f :
  h !! classPrototype = Some p →
  properties p !! "sortData" = Some f →
  typeof f = "function" →
  ∃ this h',
    newDatatableSorter classPrototype parent dataFieldName h = Some (this, h') ∧
    h !! this = None ∧
    (∀ r, r ≠ this → h' !! r = h !! r) ∧
    getProperty h' this "defaultSortDirection" = VString "asc" ∧
    getProperty h' this "sortDirection" = VString "asc" ∧
    getProperty h' this "sortedBy" = VNull ∧
    getProperty h' this "parent" = parent ∧
    getProperty h' this "dataFieldName" = dataFieldName ∧
    getProperty h' this "sortData" = VProtected f this ∧
    ∀ context arguments hh,
      call native (getProperty h' this "sortData") context arguments hh
        = call native f (VObject this) arguments hh.
Proof.
  intros Hp Hf Hfun. unfold newDatatableSorter.
  set (this := fresh (dom h)).
  set (fields := ({[ "defaultSortDirection" := VString "asc";
                     "sortDirection" := VString "asc";
                     "sortedBy" := VNull;
                     "parent" := VUndefined;
                     "dataFieldName" := VUndefined ]} : gmap string Value)).
  set (h0 := <[this := mkObject (Some classPrototype) fields]> h).
  assert (Hfresh : h !! this = None).
  { apply not_elem_of_dom. apply is_fresh. }
  assert (Hne : classPrototype ≠ this) by congruence.
  assert (Hthis0 : h0 !! this = Some (mkObject (Some classPrototype) fields)).
  { apply lookup_insert_eq. }
  assert (Hp0 : h0 !! classPrototype = Some p).
  { unfold h0. by rewrite lookup_insert_ne. }
  assert (Hread0 : getProperty h0 this "sortData" = f).
  { assert (Htwo : (2 ≤ size h0)%nat)
      by (apply (size_two h0 this classPrototype); eauto).
    unfold getProperty. destruct (size h0) as [|[|n]]; [lia..|].
    simpl. rewrite Hthis0. simpl.
    assert (fields !! "sortData" = None) as -> by (vm_compute; reflexivity).
    by rewrite Hp0, Hf. }
  destruct (protectThis_full this h0 _ classPrototype p Hthis0 eq_refl Hp0)
    as (h1 & o1 & Hrun & _ & Hframe & Ho1 & Hproto1 & Hprops & _).
  rewrite Hrun. simpl.
  assert (Hfield : ∀ name w,
            fields !! name = Some w → typeof w ≠ "function" →
            properties o1 !! name = Some w).
  { intros name w Hw Hty. rewrite (Hprops name).
    rewrite decide_False; [done|]. intros [_ Hfn].
    by rewrite (getProperty_own h0 this _ name w Hthis0 Hw) in Hfn. }
  assert (Hsort : properties o1 !! "sortData" = Some (VProtected f this)).
  { rewrite (Hprops "sortData"). rewrite decide_True; [by rewrite Hread0|].
    split; [eauto|by rewrite Hread0]. }
  pose proof (lookup_setProperty_eq h1 this "parent" parent o1 Ho1) as Ho2.
  set (h2 := setProperty h1 this "parent" parent) in *.
  set (o2 := mkObject (prototype o1) (<["parent" := parent]> (properties o1))) in *.
  assert (Hread : ∀ name w, name ≠ "parent" → name ≠ "dataFieldName" →
            properties o1 !! name = Some w →
            getProperty (setProperty h2 this "dataFieldName" dataFieldName) this name = w).
  { intros name w Hn1 Hn2 Hw.
    apply (getProperty_setProperty_own h2 this _ _ o2); [done|done|].
    unfold o2. simpl. by rewrite lookup_insert_ne. }
  exists this, (setProperty h2 this "dataFieldName" dataFieldName).
  split; [done|]. split; [done|]. split.
  { intros r Hr. rewrite lookup_setProperty_ne by done. unfold h2.
    rewrite lookup_setProperty_ne by done.
    rewrite Hframe by done. unfold h0. by rewrite lookup_insert_ne. }
  split; [apply Hread; [done..|]; by apply Hfield|].
  split; [apply Hread; [done..|]; by apply Hfield|].
  split; [apply Hread; [done..|]; by apply Hfield|].
  split.
  { rewrite getProperty_setProperty_ne by done.
    apply getProperty_setProperty_eq. eauto. }
  split.
  { apply getProperty_setProperty_eq. eauto. }
  assert (Hsortread :
            getProperty (setProperty h2 this "dataFieldName" dataFieldName) this
              "sortData" = VProtected f this).
  { by apply Hread. }
  split; [done|].
  intros context arguments hh. by rewrite Hsortread.
Qed.

Lemma newDatatableSorter_spec_witness :
  ∃ this h',
    newDatatableSorter 1%nat (VObject 2%nat) (VString "data") sorterClassHeap
      = Some (this, h') ∧
    sorterClassHeap !! this = None ∧
    (∀ r, r ≠ this → h' !! r = sorterClassHeap !! r) ∧
    getProperty h' this "defaultSortDirection" = VString "asc" ∧
    getProperty h' this "sortDirection" = VString "asc" ∧
    getProperty h' this "sortedBy" = VNull ∧
    getProperty h' this "parent" = VObject 2%nat ∧
    getProperty h' this "dataFieldName" = VString "data" ∧
    getProperty h' this "sortData" = VProtected (VNative 5) this ∧
    ∀ context arguments hh,
      call exampleNative (getProperty h' this "sortData") context arguments hh
        = call exampleNative (VNative 5) (VObject this) arguments hh.
Proof.
  apply (newDatatableSorter_spec exampleNative 1%nat (VObject 2%nat)
           (VString "data") sorterClassHeap
           (mkObject (Some 0%nat)
              {[ "constructor" := VNative 0;
                 "sortBy" := VNative 4;
                 "sortData" := VNative 5 ]})
           (VNative 5)).
  - vm_compute. reflexivity.
  - vm_compute. reflexivity.
  - reflexivity.
Defined.

End NewDatatableSorter.

(** ** The sorter's own state *)

(** X24. What [sortData] does to the heap depends on the event and on the
    slot the sorter is bound to, not on the direction or field the sorter
    currently exposes: two sorters bound to the same slot leave the same
    heap. *)
Theorem sortData_ignores_exposed_state detail this that h :
  DatatableSorter.parent this = DatatableSorter.parent that →
  DatatableSorter.dataFieldName this = DatatableSorter.dataFieldName that →
  snd <$> DatatableSorter.sortData detail this h
    = snd <$> DatatableSorter.sortData detail that h.
Proof.
  intros Hp Hf. unfold DatatableSorter.sortData. rewrite Hp, Hf.
  destruct (readSlot _ _ h) as [source|]; simpl; [|done].
  destruct (spread source h) as [[cloneData h1]|]; simpl; [|done].
  destruct (sort_in_place cloneData _ h1) as [h2|]; simpl; [|done].
  by destruct (writeSlot _ _ cloneData h2).
Qed.

Lemma sortData_ignores_exposed_state_witness :
  snd <$> DatatableSorter.sortData (SortEvent.mk "age" "asc")
            (DatatableSorter.constructor 0%nat "data") (heap_of "data" data)
    = snd <$> DatatableSorter.sortData (SortEvent.mk "age" "asc")
                (DatatableSorter.mk "asc" "desc" (Some "id") 0%nat "data")
                (heap_of "data" data).
Proof.
  apply (sortData_ignores_exposed_state (SortEvent.mk "age" "asc")
           (DatatableSorter.constructor 0%nat "data")
           (DatatableSorter.mk "asc" "desc" (Some "id") 0%nat "data")
           (heap_of "data" data)); reflexivity.
Defined.
